(** * ReadOrSkip chatbot: book-reference resolution and reply composition

    A shallow embedding of [chatbot.py] and [app.py].

    Python strings are sequences of Unicode code points, so a string is a
    list of code points ([N]).  Two parts of the Python runtime are tables
    too large to write out: which code points are alphanumeric (the class
    behind the regular expression [\w]) and [str.lower].  They are the
    fields of the class [Unicode]; the development is generic in them and
    [ascii_unicode] is the instance that agrees with CPython on ASCII text.
    Whitespace ([\s], [str.strip]) is a short list and is written out.

    What is loaded when the module is imported (the catalog, the fitted
    intent classifier, the greeting replies of [intents.csv]) makes up the
    class [Loaded]; the similarity score of [difflib] is the class
    [Difflib], with the matching of [SequenceMatcher] as the instance
    [gestalt]. *)

From Stdlib Require Import String Ascii.
From Stdlib Require Import List NArith ZArith QArith Bool Arith Lia.
Import ListNotations.
Close Scope Q_scope.

Set Implicit Arguments.

(* ===================================================================== *)
(** ** Strings *)
(* ===================================================================== *)

Definition char := N.
Definition pystr := list char.

(** An ASCII literal as a Python string. *)
Definition str (s : string) : pystr := map N_of_ascii (list_ascii_of_string s).
Arguments str s%_string.

Definition str_eqb (a b : pystr) : bool :=
  if list_eq_dec N.eq_dec a b then true else false.

(** Python compares strings code point by code point. *)
Fixpoint str_ltb (a b : pystr) : bool :=
  match a, b with
  | [], [] => false
  | [], _ :: _ => true
  | _ :: _, [] => false
  | x :: a', y :: b' =>
      match (x ?= y)%N with
      | Lt => true
      | Gt => false
      | Eq => str_ltb a' b'
      end
  end.

Definition space : char := 32%N.

(** [str.isspace] for one code point; the regular expression class [\s]
    and [str.strip()] use the same table. *)
Definition isspace (c : char) : bool :=
  ((9 <=? c) && (c <=? 13) || (28 <=? c) && (c <=? 32) || (c =? 133)
   || (c =? 160) || (c =? 5760) || (8192 <=? c) && (c <=? 8202)
   || (c =? 8232) || (c =? 8233) || (c =? 8239) || (c =? 8287)
   || (c =? 12288))%N.

Class Unicode := {
  (** [str.isalnum] for one code point *)
  isalnum : char -> bool;
  (** [str.lower] *)
  str_lower : pystr -> pystr
}.

(** [s.replace(old, new)] for one-character [old] and [new]. *)
Definition replace (old new : char) (s : pystr) : pystr :=
  map (fun c => if (c =? old)%N then new else c) s.
Arguments replace (old new)%_N s.

Fixpoint lstrip (s : pystr) : pystr :=
  match s with
  | [] => []
  | c :: s' => if isspace c then lstrip s' else s
  end.

Definition rstrip (s : pystr) : pystr := rev (lstrip (rev s)).

(** [s.strip()] *)
Definition strip (s : pystr) : pystr := rstrip (lstrip s).

(** [re.sub(r"\s+", " ", s)]: every maximal run of whitespace becomes one
    space; [in_run] says that the previous character was whitespace. *)
Fixpoint collapse_from (in_run : bool) (s : pystr) : pystr :=
  match s with
  | [] => []
  | c :: s' =>
      if isspace c
      then if in_run then collapse_from true s' else space :: collapse_from true s'
      else c :: collapse_from false s'
  end.

Definition collapse_ws (s : pystr) : pystr := collapse_from false s.

Fixpoint starts_with (p s : pystr) : bool :=
  match p, s with
  | [], _ => true
  | _ :: _, [] => false
  | x :: p', y :: s' => (x =? y)%N && starts_with p' s'
  end.

Section Text.
Context {U : Unicode}.

(** The class [\w]: alphanumeric or underscore. *)
Definition is_word (c : char) : bool := isalnum c || (c =? 95)%N.

Definition _strip_smart_quotes (s : pystr) : pystr :=
  replace 8212 45 (replace 8211 45
    (replace 8221 34 (replace 8220 34
       (replace 8216 39 (replace 8217 39 s))))).

(** [re.sub(r"[^\w\s]", " ", s)] *)
Definition punct_to_space (s : pystr) : pystr :=
  map (fun c => if is_word c || isspace c then c else space) s.

Definition normalize_text (s : pystr) : pystr :=
  match s with
  | [] => []
  | _ =>
      let s := _strip_smart_quotes (str_lower s) in
      let s := punct_to_space s in
      strip (collapse_ws s)
  end.

(** One alternative of [^(the|a|an)\s+]: the article, then one or more
    whitespace characters, taken greedily.  The result is what is left of
    the string after the match. *)
Definition after_article (art s : pystr) : option pystr :=
  if starts_with art s
  then match skipn (length art) s with
       | c :: rest => if isspace c then Some (lstrip rest) else None
       | [] => None
       end
  else None.

(** [re.sub(r"^(the|a|an)\s+", "", s)]: the pattern is anchored, so it
    matches at most once; the alternatives are tried in order. *)
Definition strip_leading_article (s : pystr) : pystr :=
  match after_article (str "the") s with
  | Some r => r
  | None =>
      match after_article (str "a") s with
      | Some r => r
      | None =>
          match after_article (str "an") s with
          | Some r => r
          | None => s
          end
      end
  end.

Definition normalize_title (s : pystr) : pystr :=
  strip_leading_article (normalize_text s).

(** *** Word boundaries *)

Definition word_opt (c : option char) : bool :=
  match c with Some c => is_word c | None => false end.

(** [\b] between a character that is a word character or not ([prevw];
    [false] at the start of the string) and the rest of the string. *)
Definition boundary (prevw : bool) (rest : pystr) : bool :=
  xorb prevw (word_opt (hd_error rest)).

Definition last_word (prevw : bool) (p : pystr) : bool :=
  match p with
  | [] => prevw
  | _ => word_opt (hd_error (rev p))
  end.

(** The pattern [\b + re.escape(p) + \b] matches at the head of [s],
    where [prevw] describes the character before [s]. *)
Definition match_here (p : pystr) (prevw : bool) (s : pystr) : bool :=
  boundary prevw s && starts_with p s
  && boundary (last_word prevw p) (skipn (length p) s).

(** [re.search(r"\b" + re.escape(p) + r"\b", s)], as a truth value. *)
Fixpoint search_from (p : pystr) (prevw : bool) (s : pystr) : bool :=
  match_here p prevw s
  || match s with
     | [] => false
     | c :: s' => search_from p (is_word c) s'
     end.

Definition re_search_wb (p s : pystr) : bool := search_from p false s.

(** [re.sub(r"\b" + re.escape(p) + r"\b", "", s)] for a non-empty [p]:
    matches are found left to right and do not overlap; [skip] counts the
    characters of the current match still to be dropped. *)
Fixpoint sub_from (p : pystr) (prevw : bool) (skip : nat) (s : pystr) : pystr :=
  match s with
  | [] => []
  | c :: s' =>
      match skip with
      | S k => sub_from p (is_word c) k s'
      | O =>
          if match_here p prevw s
          then sub_from p (is_word c) (length p - 1) s'
          else c :: sub_from p (is_word c) 0 s'
      end
  end.

Definition re_sub_wb (p s : pystr) : pystr := sub_from p false 0 s.

Definition HELPER_PHRASES : list pystr :=
  [ str "tell me about"; str "summary of"; str "give me the summary of";
    str "short summary of";
    str "what is"; str "what's"; str "whats"; str "can you summarize";
    str "verdict on";
    str "who is the author of"; str "author of"; str "who wrote";
    str "writer of";
    str "how many pages in"; str "total pages of"; str "length of";
    str "page count of";
    str "number of pages in"; str "how long is";
    str "rating of"; str "goodreads rating of"; str "average rating of";
    str "how is"; str "what is the rating of" ].

Definition clean_query_from_helpers (message : pystr) : pystr :=
  let m := str_lower message in
  let m := _strip_smart_quotes m in
  let m := fold_left (fun m p => re_sub_wb p m) HELPER_PHRASES m in
  strip (collapse_ws m).

End Text.

(* ===================================================================== *)
(** ** The catalog and what else is loaded at import *)
(* ===================================================================== *)

(** One record of [summaries.json].  [BOOK_TITLE_INDEX] reads [b["title"]]
    of every record when the module is imported, so a loaded catalog has a
    title in every record; the other keys may be absent.  Values are kept
    as the text that an f-string prints for them. *)
Record book := {
  title : pystr;
  summary : option pystr;
  verdict : option pystr;
  Author : option pystr;
  Pages : option pystr;
  Rating : option pystr
}.

(** [difflib.SequenceMatcher(None, a, b).ratio()].  The score is the
    floating-point value of [2.0 * M / T], with [M] the number of matched
    characters and [T] the total length; comparing it with [0.73] gives the
    same answer as comparing the exact quotient with 73/100 as long as [T]
    is below 2^46, since [73 * T - 200 * M] is an integer. *)
Class Difflib := {
  ratio : pystr -> pystr -> Q
}.

Class Loaded := {
  (** [json.load] of [summaries.json] *)
  books_data : list book;
  (** [clf.predict(vectorizer.transform([text]))[0]] *)
  predict_intent : pystr -> pystr;
  (** the [response] column of the rows of [intents.csv] whose intent is
      [greeting] *)
  greeting_responses : list pystr
}.

Definition cutoff : Q := 73 # 100.

(** The order of the pairs [(score, x)] that [heapq.nlargest] compares. *)
Definition scored_ltb (p q : Q * pystr) : bool :=
  match (fst p ?= fst q)%Q with
  | Lt => true
  | Gt => false
  | Eq => str_ltb (snd p) (snd q)
  end.

(** [max(iterable, default=None)]: the first greatest element. *)
Definition max_scored (l : list (Q * pystr)) : option (Q * pystr) :=
  match l with
  | [] => None
  | p :: l' => Some (fold_left (fun best q => if scored_ltb best q then q else best) l' p)
  end.

(** [x.index(v)] *)
Fixpoint index (v : pystr) (l : list pystr) : option nat :=
  match l with
  | [] => None
  | x :: l' => if str_eqb x v then Some 0 else option_map S (index v l')
  end.

(** A stable sort on the first component, greatest first:
    [l.sort(key=lambda x: x[0], reverse=True)]. *)
Fixpoint insert_desc (A : Type) (x : nat * A) (l : list (nat * A)) : list (nat * A) :=
  match l with
  | [] => [x]
  | y :: l' => if fst x <? fst y then y :: insert_desc x l' else x :: l
  end.

Definition sort_desc (A : Type) (l : list (nat * A)) : list (nat * A) :=
  fold_right (@insert_desc A) [] l.

Section Resolver.
Context {U : Unicode} {D : Difflib} {L : Loaded}.

(** [difflib.get_close_matches(word, possibilities, n=1, cutoff=0.73)]:
    the candidates that score at least the cutoff, then the best of
    them.  ([quick_ratio] and [real_quick_ratio], which the library tests
    first, are upper bounds of [ratio].) *)
Definition get_close_matches (word : pystr) (possibilities : list pystr) : list pystr :=
  let result :=
    flat_map (fun x => if Qle_bool cutoff (ratio x word) then [(ratio x word, x)] else [])
             possibilities in
  match max_scored result with
  | Some (_, x) => [x]
  | None => []
  end.

Definition BOOK_TITLE_INDEX : list (pystr * book) :=
  map (fun b => (normalize_title (title b), b)) books_data.

Definition titles_norm : list pystr := map fst BOOK_TITLE_INDEX.

(** The loop that fills [candidates]. *)
Definition candidates (msg_norm : pystr) : list (nat * book) :=
  flat_map (fun '(nt, book) =>
              match nt with
              | [] => []
              | _ => if re_search_wb nt msg_norm then [(length nt, book)] else []
              end)
           BOOK_TITLE_INDEX.

(** 1) Word-boundary containment of known titles inside the message *)
Definition containment_tier (msg_norm : pystr) : option book :=
  match sort_desc (candidates msg_norm) with
  | (_, book) :: _ => Some book
  | [] => None
  end.

(** 2) Exact equality against normalized titles *)
Definition equality_tier (msg_norm : pystr) : option book :=
  option_map snd (find (fun '(nt, _) => str_eqb msg_norm nt) BOOK_TITLE_INDEX).

(** 3), 4) Fuzzy match of [query] against the normalized titles *)
Definition fuzzy_tier (query : pystr) : option book :=
  match get_close_matches query titles_norm with
  | x :: _ =>
      match index x titles_norm with
      | Some idx => option_map snd (nth_error BOOK_TITLE_INDEX idx)
      | None => None
      end
  | [] => None
  end.

Definition find_book_in_message (message : pystr) : option book :=
  match message with
  | [] => None
  | _ =>
      let msg_norm := normalize_text message in
      match msg_norm with
      | [] => None
      | _ =>
          match containment_tier msg_norm with
          | Some book => Some book
          | None =>
              match equality_tier msg_norm with
              | Some book => Some book
              | None =>
                  match fuzzy_tier msg_norm with
                  | Some book => Some book
                  | None => fuzzy_tier (strip_leading_article msg_norm)
                  end
              end
          end
      end
  end.

(** The resolver without its last tier, to compare with. *)
Definition find_book_without_article_tier (message : pystr) : option book :=
  match message with
  | [] => None
  | _ =>
      let msg_norm := normalize_text message in
      match msg_norm with
      | [] => None
      | _ =>
          match containment_tier msg_norm with
          | Some book => Some book
          | None =>
              match equality_tier msg_norm with
              | Some book => Some book
              | None => fuzzy_tier msg_norm
              end
          end
      end
  end.

Definition extract_book_from_input (user_input : pystr) : option book :=
  let cleaned := clean_query_from_helpers user_input in
  find_book_in_message cleaned.

End Resolver.

(* ===================================================================== *)
(** ** Replies *)
(* ===================================================================== *)

Inductive exn := IndexError | KeyError.

Inductive result (A : Type) :=
| Ret (a : A)
| Raise (e : exn).
Arguments Ret {A} a.
Arguments Raise {A} e.

(** [random.choice(seq)], with the index that the generator draws. *)
Definition random_choice (A : Type) (rnd : nat) (seq : list A) : result A :=
  match seq with
  | [] => Raise IndexError
  | _ => match nth_error seq (rnd mod length seq) with
         | Some x => Ret x
         | None => Raise IndexError
         end
  end.

(** [book.get(key, default)] *)
Definition get (field : option pystr) (default : pystr) : pystr :=
  match field with Some v => v | None => default end.

Definition book_intents : list pystr :=
  [str "summary"; str "verdict"; str "author"; str "pages"; str "rating"].

Definition handled_intents : list pystr :=
  str "greeting" :: str "random_book" :: book_intents.

Definition please_mention : pystr := str "Please mention the book title.".

Section Bot.
Context {U : Unicode} {D : Difflib} {L : Loaded}.

(** The reply about [book] for a book intent (lines 163 to 178). *)
Definition book_reply (predicted_intent : pystr) (book : book) : pystr :=
  if str_eqb predicted_intent (str "summary") then
    [128214%N] ++ str " " ++ title book ++ [32; 8212; 32]%N
      ++ get (summary book) (str "No summary available")
  else if str_eqb predicted_intent (str "verdict") then
    [9989%N] ++ str " Verdict on " ++ title book ++ str ": "
      ++ get (verdict book) (str "No verdict available")
  else if str_eqb predicted_intent (str "author") then
    [9997; 65039]%N ++ str " Author of " ++ title book ++ str " is "
      ++ get (Author book) (str "Unknown Author") ++ str "."
  else if str_eqb predicted_intent (str "pages") then
    [128196%N] ++ str " " ++ title book ++ str " has "
      ++ get (Pages book) (str "Unknown number of") ++ str "."
  else if str_eqb predicted_intent (str "rating") then
    [11088%N] ++ str " Rating of " ++ title book ++ str ": "
      ++ get (Rating book) (str "No rating available")
  else
    str "Sorry, I couldn" ++ [8217%N] ++ str "t find details for '"
      ++ title book ++ str "'.".

(** [get_bot_response], with the memory cell [last_book["book"]] passed
    in and out, and [rnd] the number that [random] draws in this call.
    The value is [None] when the Python function falls off its end.  A
    catalog record has a title, so as a dictionary it is not empty and the
    tests [if book] and [if not book] only tell it from [None]. *)
Definition get_bot_response (last_book : option book) (rnd : nat) (user_input : pystr)
  : result (option pystr) * option book :=
  let predicted_intent := predict_intent user_input in
  if str_eqb predicted_intent (str "greeting") then
    match greeting_responses with
    | [] => (Ret (Some (str "Hello! How can I help you today?")), last_book)
    | responses =>
        match random_choice rnd responses with
        | Ret r => (Ret (Some r), last_book)
        | Raise e => (Raise e, last_book)
        end
    end
  else if str_eqb predicted_intent (str "random_book") then
    match random_choice rnd books_data with
    | Raise e => (Raise e, last_book)
    | Ret book =>
        let last_book := Some book in
        match summary book with
        | None => (Raise KeyError, last_book)
        | Some s =>
            (Ret (Some ([128214%N] ++ str " Random pick: " ++ title book
                          ++ [32; 8212; 32]%N ++ s)), last_book)
        end
    end
  else if existsb (str_eqb predicted_intent) book_intents then
    let book := extract_book_from_input user_input in
    let '(book, last_book) :=
      match book with
      | Some b => (Some b, Some b)
      | None => (last_book, last_book)
      end in
    match book with
    | None => (Ret (Some please_mention), last_book)
    | Some book => (Ret (Some (book_reply predicted_intent book)), last_book)
    end
  else (Ret None, last_book).

(** *** The request boundary ([app.py]) *)

Record response := {
  body : option pystr;     (* the "response" member of the JSON reply *)
  status : nat
}.

Definition server_error : pystr :=
  [9888; 65039]%N ++ str " Server error, check console.".

(** [get_bot_reply]; [message] is the text in the "message" member of the
    request, when there is one. *)
Definition get_bot_reply (last_book : option book) (rnd : nat) (message : option pystr)
  : response * option book :=
  let user_input := match message with Some m => m | None => [] end in
  match get_bot_response last_book rnd user_input with
  | (Ret r, last_book) => ({| body := r; status := 200 |}, last_book)
  | (Raise _, last_book) => ({| body := Some server_error; status := 500 |}, last_book)
  end.

(** The memory after a run of requests, starting from [{"book": None}]. *)
Fixpoint run (last_book : option book) (requests : list (nat * pystr)) : option book :=
  match requests with
  | [] => last_book
  | (rnd, user_input) :: rest => run (snd (get_bot_response last_book rnd user_input)) rest
  end.

End Bot.

(* ===================================================================== *)
(** ** Instances for examples *)
(* ===================================================================== *)

Definition ascii_isalnum (c : char) : bool :=
  ((48 <=? c) && (c <=? 57) || (65 <=? c) && (c <=? 90)
   || (97 <=? c) && (c <=? 122))%N.

Definition ascii_lower_char (c : char) : char :=
  if ((65 <=? c) && (c <=? 90))%N then (c + 32)%N else c.

(** The Unicode tables cut down to ASCII: no other code point is a letter
    or a digit or has a lower-case form. *)
#[export] Instance ascii_unicode : Unicode := {|
  isalnum := ascii_isalnum;
  str_lower := map ascii_lower_char
|}.

(** The matching of [difflib.SequenceMatcher] with no junk: the longest
    common block, the earliest in [a] and then in [b], and the same again to
    its left and to its right. *)
Fixpoint common_prefix (a b : pystr) : nat :=
  match a, b with
  | x :: a', y :: b' => if (x =? y)%N then S (common_prefix a' b') else 0
  | _, _ => 0
  end.

Fixpoint best_in_b (sa b : pystr) (i j : nat) (best : nat * nat * nat) : nat * nat * nat :=
  match b with
  | [] => best
  | _ :: b' =>
      let k := common_prefix sa b in
      best_in_b sa b' i (S j) (if snd best <? k then (i, j, k) else best)
  end.

Fixpoint best_in_a (a b : pystr) (i : nat) (best : nat * nat * nat) : nat * nat * nat :=
  match a with
  | [] => best
  | _ :: a' => best_in_a a' b (S i) (best_in_b a b i 0 best)
  end.

Definition find_longest_match (a b : pystr) : nat * nat * nat :=
  best_in_a a b 0 (0, 0, 0).

Fixpoint matches (fuel : nat) (a b : pystr) : nat :=
  match fuel with
  | O => 0
  | S fuel =>
      let '(i, j, k) := find_longest_match a b in
      if k =? 0 then 0
      else matches fuel (firstn i a) (firstn j b) + k
           + matches fuel (skipn (i + k) a) (skipn (j + k) b)
  end.

Definition gestalt_ratio (a b : pystr) : Q :=
  let T := length a + length b in
  if T =? 0 then 1%Q
  else Qmake (Z.of_nat (2 * matches (S (length a)) a b)) (Pos.of_nat T).

#[export] Instance gestalt : Difflib := {| ratio := gestalt_ratio |}.

Definition book_of (t s : pystr) : book :=
  {| title := t; summary := Some s; verdict := None; Author := None;
     Pages := None; Rating := None |}.

Definition It : book := book_of (str "It") (str "A clown.").
Definition It_Ends_with_Us : book := book_of (str "It Ends with Us") (str "A florist.").
Definition Dune : book := book_of (str "Dune") (str "Sand.").
Definition The_Hobbit : book :=
  {| title := str "The Hobbit"; summary := None; verdict := Some (str "Read");
     Author := Some (str "J. R. R. Tolkien"); Pages := Some (str "310");
     Rating := None |}.

(** A classifier that reads the intent off the first word. *)
Definition first_word_intent (text : pystr) : pystr :=
  let t := map ascii_lower_char text in
  if starts_with (str "hi") t then str "greeting"
  else if starts_with (str "surprise") t then str "random_book"
  else if starts_with (str "who") t then str "author"
  else if starts_with (str "bye") t then str "goodbye"
  else if starts_with (str "how many") t then str "pages"
  else str "summary".

Definition shelf : Loaded := {|
  books_data := [It; It_Ends_with_Us; Dune; The_Hobbit];
  predict_intent := first_word_intent;
  greeting_responses := [str "Hello!"; str "Hi there!"]
|}.

Definition shelf_swapped : Loaded := {|
  books_data := [It_Ends_with_Us; It];
  predict_intent := first_word_intent;
  greeting_responses := []
|}.

(** A title that normalizes to the empty string. *)
Definition Untitled : book := book_of (str "?!") (str "No words.").

Definition odd_shelf : Loaded := {|
  books_data := [Untitled; Dune];
  predict_intent := first_word_intent;
  greeting_responses := []
|}.

Definition empty_shelf : Loaded := {|
  books_data := [];
  predict_intent := first_word_intent;
  greeting_responses := []
|}.

(* ===================================================================== *)
(** ** Predicates used in the statements *)
(* ===================================================================== *)

(** A string in which whitespace is single spaces; [prev] says that the
    character before was whitespace. *)
Fixpoint collapsed (prev : bool) (s : pystr) : bool :=
  match s with
  | [] => true
  | c :: s' =>
      if isspace c then (c =? space)%N && negb prev && collapsed true s'
      else collapsed false s'
  end.

(** What [strip] returns starts and ends with a character that is not
    whitespace, and [strip] leaves such a string alone. *)
Definition trimmed (s : pystr) : Prop :=
  match s with [] => True | c :: _ => isspace c = false end
  /\ match rev s with [] => True | c :: _ => isspace c = false end.

(** The typographic quotes and dashes that [_strip_smart_quotes] folds. *)
Definition smart (c : char) : bool :=
  ((c =? 8217) || (c =? 8216) || (c =? 8220) || (c =? 8221)
   || (c =? 8211) || (c =? 8212))%N.

Definition fold_char (c : char) : char :=
  (if (c =? 8217) || (c =? 8216) then 39
   else if (c =? 8220) || (c =? 8221) then 34
   else if (c =? 8211) || (c =? 8212) then 45
   else c)%N.

Section Shapes.
Context {U : Unicode}.

(** The shape of what [normalize_text] returns: word characters and
    single spaces, no space at either end. *)
Definition normalized (t : pystr) : Prop :=
  (forall c, In c t ->
     (c = space \/ (isspace c = false /\ is_word c = true)) /\ smart c = false)
  /\ collapsed false t = true
  /\ trimmed t.

(** What the proof of idempotence needs of [str.lower]: a string made of
    characters of a lower-cased string and of the ASCII space, quotes and
    hyphen is its own lower-case form.  (In Unicode a lower-case mapping
    never yields a character that has one itself, and only the capital
    sigma is mapped by context.) *)
Definition lower_stable : Prop :=
  forall s t, incl t ([32; 34; 39; 45]%N ++ str_lower s) -> str_lower t = t.

End Shapes.

Section Occurrence.
Context {U : Unicode}.

(** [p] occurs in [s] with a word boundary on each side: what the pattern
    [\b + re.escape(p) + \b] finds. *)
Definition occurs_wb (p s : pystr) : Prop :=
  exists pre post,
    s = pre ++ p ++ post
    /\ boundary (last_word false pre) (p ++ post) = true
    /\ boundary (last_word false (pre ++ p)) post = true.

End Occurrence.

Section IndexPredicates.
Context {U : Unicode} {D : Difflib} {L : Loaded}.

(** The containment test of one index pair against the normalized message. *)
Definition title_in (nt msg_norm : pystr) : Prop :=
  nt <> [] /\ occurs_wb nt msg_norm.

(** What the loop appends for one index pair. *)
Definition candidate_of (msg_norm : pystr) (p : pystr * book) : list (nat * book) :=
  let '(nt, book) := p in
  match nt with
  | [] => []
  | _ => if re_search_wb nt msg_norm then [(length nt, book)] else []
  end.

(** The pair at position [i] of the index matches, no matching title is
    longer, and no matching title before it is as long. *)
Definition longest_first (msg_norm : pystr) (i : nat) (nt : pystr) (b : book) : Prop :=
  nth_error BOOK_TITLE_INDEX i = Some (nt, b)
  /\ title_in nt msg_norm
  /\ forall j nt' b',
       nth_error BOOK_TITLE_INDEX j = Some (nt', b') ->
       title_in nt' msg_norm ->
       length nt' <= length nt /\ (j < i -> length nt' < length nt).

(** The fuzzy match of the query [q]: the pair at position [i] is the first
    one with the title [nt], which scores at least the cutoff and at least
    as much as every other title. *)
Definition best_match (q : pystr) (i : nat) (nt : pystr) (b : book) : Prop :=
  nth_error BOOK_TITLE_INDEX i = Some (nt, b)
  /\ (forall j, j < i -> nth_error titles_norm j <> Some nt)
  /\ (cutoff <= ratio nt q)%Q
  /\ forall nt', In nt' titles_norm -> (ratio nt' q <= ratio nt q)%Q.

End IndexPredicates.

Section Cuts.
Context {U : Unicode}.

(** [r] is [s] with some occurrences of [p] cut out, each of them between
    two word boundaries, and everything else left where it was; [w] says
    whether the character before [s] is a word character. *)
Inductive deletes (p : pystr) : bool -> pystr -> pystr -> Prop :=
| deletes_nil w : deletes p w [] []
| deletes_keep w c s r :
    deletes p (is_word c) s r -> deletes p w (c :: s) (c :: r)
| deletes_cut w s r :
    boundary w (p ++ s) = true ->
    boundary (last_word w p) s = true ->
    deletes p (last_word w p) s r ->
    deletes p w (p ++ s) r.

End Cuts.

Section Scan.
Context {U : Unicode}.




End Scan.






(** The memory cell holds nothing or an entry of the loaded catalog. *)
Definition memory_ok {L : Loaded} (last_book : option book) : Prop :=
  match last_book with
  | None => True
  | Some b => In b books_data
  end.

(** The string starts with "the", "a" or "an" and a whitespace character:
    where [^(the|a|an)\s+] matches. *)
Definition begins_with_article (s : pystr) : Prop :=
  exists art c rest,
    In art [str "the"; str "a"; str "an"]
    /\ s = art ++ c :: rest /\ isspace c = true.


(* ===================================================================== *)
(** ** The rest of the program *)
(* ===================================================================== *)

(** The text of line 178 of [chatbot.py]. *)
Definition sorry_reply (book : book) : pystr :=
  str "Sorry, I couldn" ++ [8217%N] ++ str "t find details for '"
    ++ title book ++ str "'.".

(** What the local loop writes to standard output, taken to accept every
    string: the prompt of [input], the lines of [print], and the line of
    [print("DEBUG ...", book)] at line 161, which shows the matched book. *)
Inductive output :=
| Prompt
| Line (text : pystr)
| Debug (book : book).

(** How the local loop ends: by [break], or by an exception that nothing
    catches ([input] raises [EOFError] when the input is used up). *)
Inductive repl_end :=
| Quit
| EOFError
| Uncaught (e : exn).

Section Repl.
Context {U : Unicode} {D : Difflib} {L : Loaded}.

(** What [get_bot_response] prints itself while it answers: the matched
    book, in the branch of the book intents once a book is there. *)
Definition debug_lines (last_book : option book) (user_input : pystr) : list output :=
  let predicted_intent := predict_intent user_input in
  if str_eqb predicted_intent (str "greeting") then []
  else if str_eqb predicted_intent (str "random_book") then []
  else if existsb (str_eqb predicted_intent) book_intents then
    let book := extract_book_from_input user_input in
    let book := match book with Some b => Some b | None => last_book end in
    match book with
    | None => []
    | Some book => [Debug book]
    end
  else [].

(** [print("Bot:", response)] *)
Definition bot_line (response : option pystr) : output :=
  Line (str "Bot: " ++ match response with Some r => r | None => str "None" end).

(** The [while True] loop of the local REPL on the lines that [input]
    reads, each with the number that [random] draws while it is answered. *)
Fixpoint repl (last_book : option book) (lines : list (nat * pystr))
  : list output * repl_end * option book :=
  match lines with
  | [] => ([Prompt], EOFError, last_book)
  | (rnd, ui) :: rest =>
      if str_eqb (str_lower ui) (str "quit") then ([Prompt], Quit, last_book)
      else
        match get_bot_response last_book rnd ui with
        | (Ret response, m) =>
            let '(out, e, m') := repl m rest in
            (Prompt :: debug_lines last_book ui ++ bot_line response :: out, e, m')
        | (Raise e, m) => (Prompt :: debug_lines last_book ui, Uncaught e, m)
        end
  end.

(** The block under [if __name__ == "__main__"]. *)
Definition main (lines : list (nat * pystr)) : list output * repl_end * option book :=
  let '(out, e, m) := repl None lines in
  (Line (str "Chatbot is ready! Type 'quit' to exit.") :: out, e, m).

(** The resolver without its equality tier, to compare with. *)
Definition find_book_without_equality_tier (message : pystr) : option book :=
  match message with
  | [] => None
  | _ =>
      let msg_norm := normalize_text message in
      match msg_norm with
      | [] => None
      | _ =>
          match containment_tier msg_norm with
          | Some book => Some book
          | None =>
              match fuzzy_tier msg_norm with
              | Some book => Some book
              | None => fuzzy_tier (strip_leading_article msg_norm)
              end
          end
      end
  end.

End Repl.

Section Transcript.
Context {U : Unicode} {D : Difflib} {L : Loaded}.

(** What is written for one answered line when the memory is [last_book]:
    the prompt, what [get_bot_response] prints, and the reply. *)
Definition exchange (last_book : option book) (line : nat * pystr) : list output :=
  Prompt :: debug_lines last_book (snd line)
    ++ match fst (get_bot_response last_book (fst line) (snd line)) with
       | Ret response => [bot_line response]
       | Raise _ => []
       end.

(** What is written for the lines [pre], the line at position [i] answered
    with the memory that the [i] lines before it left. *)
Definition transcript (last_book : option book) (pre : list (nat * pystr)) : list output :=
  concat (map (fun i => exchange (run last_book (firstn i pre)) (nth i pre (0, [])))
              (seq 0 (length pre))).

(** Every line of [pre] is answered without an exception. *)
Definition answered (last_book : option book) (pre : list (nat * pystr)) : Prop :=
  forall i rnd ui,
    nth_error pre i = Some (rnd, ui) ->
    exists response,
      fst (get_bot_response (run last_book (firstn i pre)) rnd ui) = Ret response.

End Transcript.

(* ===================================================================== *)
(** ** Whitespace and normalization *)
(* ===================================================================== *)

Lemma isspace_space : isspace space = true.
Proof. reflexivity. Qed.

Lemma starts_with_app (p s : pystr) :
  starts_with p s = true <-> exists r, s = p ++ r.
Proof.
  revert s; induction p as [|x p IH]; intros s; simpl.
  - split; [eauto | trivial].
  - destruct s as [|y s].
    + split; [discriminate | intros [r Hr]; discriminate].
    + rewrite andb_true_iff, N.eqb_eq, IH. split.
      * intros [-> [r ->]]. now exists r.
      * intros [r Hr]. injection Hr as -> ->. eauto.
Qed.

Lemma str_eqb_eq (a b : pystr) : str_eqb a b = true <-> a = b.
Proof. unfold str_eqb. destruct (list_eq_dec N.eq_dec a b); split; congruence. Qed.

Lemma str_eqb_refl (a : pystr) : str_eqb a a = true.
Proof. now apply str_eqb_eq. Qed.

Lemma collapse_from_collapsed b s : collapsed b (collapse_from b s) = true.
Proof.
  revert b; induction s as [|c s IH]; intros b; simpl; [reflexivity|].
  destruct (isspace c) eqn:Hc.
  - destruct b; [apply IH|]. simpl. apply IH.
  - simpl. rewrite Hc. apply IH.
Qed.

Lemma collapsed_fixed b s : collapsed b s = true -> collapse_from b s = s.
Proof.
  revert b; induction s as [|c s IH]; intros b; simpl; [reflexivity|].
  destruct (isspace c) eqn:Hc.
  - rewrite !andb_true_iff, N.eqb_eq, negb_true_iff.
    intros [[-> ->] H]. now rewrite (IH _ H).
  - intros H. now rewrite (IH _ H).
Qed.

Lemma collapsed_weaken b s : collapsed b s = true -> collapsed false s = true.
Proof.
  destruct s as [|c s]; simpl; [trivial|].
  destruct (isspace c); [|trivial].
  rewrite !andb_true_iff. intros [[-> _] ->]. auto.
Qed.

Lemma collapsed_lstrip b s : collapsed b s = true -> collapsed false (lstrip s) = true.
Proof.
  revert b; induction s as [|c s IH]; intros b; simpl; [trivial|].
  destruct (isspace c) eqn:Hc.
  - rewrite !andb_true_iff. intros [_ H]. eapply IH, H.
  - intros H. simpl. now rewrite Hc.
Qed.

Lemma collapsed_app_l b s w : collapsed b (s ++ w) = true -> collapsed b s = true.
Proof.
  revert b; induction s as [|c s IH]; intros b; simpl; [trivial|].
  destruct (isspace c).
  - rewrite !andb_true_iff. intros [H1 H2]. split; [exact H1|]. eapply IH, H2.
  - apply IH.
Qed.

(** [lstrip] drops a whitespace prefix and stops at the first other
    character. *)
Lemma lstrip_spec s :
  exists w, s = w ++ lstrip s /\ Forall (fun c => isspace c = true) w
            /\ match lstrip s with [] => True | c :: _ => isspace c = false end.
Proof.
  induction s as [|c s (w & Hw & Hall & Hhd)]; simpl.
  - exists []. repeat split. constructor.
  - destruct (isspace c) eqn:Hc.
    + exists (c :: w). simpl. rewrite <- Hw. repeat split; auto.
    + exists []. repeat split; auto.
Qed.

Lemma lstrip_fixed s :
  match s with [] => True | c :: _ => isspace c = false end -> lstrip s = s.
Proof. destruct s as [|c s]; simpl; [trivial|]. now intros ->. Qed.

Lemma lstrip_idem s : lstrip (lstrip s) = lstrip s.
Proof. apply lstrip_fixed. destruct (lstrip_spec s) as (w & _ & _ & H). exact H. Qed.

Lemma rstrip_spec s :
  exists w, s = rstrip s ++ w /\ Forall (fun c => isspace c = true) w
            /\ match rev (rstrip s) with [] => True | c :: _ => isspace c = false end.
Proof.
  unfold rstrip. destruct (lstrip_spec (rev s)) as (w & Hw & Hall & Hhd).
  exists (rev w). rewrite rev_involutive. repeat split.
  - rewrite <- rev_app_distr, <- Hw. now rewrite rev_involutive.
  - now apply Forall_rev.
  - exact Hhd.
Qed.

Lemma rstrip_fixed s :
  match rev s with [] => True | c :: _ => isspace c = false end -> rstrip s = s.
Proof. intros H. unfold rstrip. rewrite (lstrip_fixed _ H). apply rev_involutive. Qed.

Lemma rstrip_head s c s' :
  s = c :: s' -> isspace c = false -> exists r, rstrip s = c :: r.
Proof.
  intros -> Hc. destruct (rstrip_spec (c :: s')) as (w & Hw & Hall & _).
  destruct (rstrip (c :: s')) as [|x r]; simpl in Hw.
  - subst w. inversion Hall; congruence.
  - injection Hw as <- _. eauto.
Qed.

Lemma strip_trimmed s : trimmed (strip s).
Proof.
  unfold strip, trimmed. destruct (rstrip_spec (lstrip s)) as (w & Hw & Hall & Hlast).
  split; [|exact Hlast].
  destruct (lstrip_spec s) as (_ & _ & _ & Hhd).
  destruct (lstrip s) as [|c l] eqn:El.
  - reflexivity.
  - destruct (@rstrip_head (c :: l) c l eq_refl Hhd) as [r ->]. exact Hhd.
Qed.

Lemma trimmed_fixed s : trimmed s -> strip s = s.
Proof.
  intros [H1 H2]. unfold strip. rewrite (lstrip_fixed _ H1). now apply rstrip_fixed.
Qed.

Lemma strip_incl s : incl (strip s) s.
Proof.
  unfold strip. destruct (rstrip_spec (lstrip s)) as (w & Hw & _).
  destruct (lstrip_spec s) as (w' & Hw' & _).
  intros c Hc. rewrite Hw', Hw. apply in_or_app. right. apply in_or_app. now left.
Qed.

Lemma collapsed_strip b s : collapsed b s = true -> collapsed false (strip s) = true.
Proof.
  intros H. unfold strip. destruct (rstrip_spec (lstrip s)) as (w & Hw & _).
  apply collapsed_lstrip in H. rewrite Hw in H. eapply collapsed_app_l, H.
Qed.

Lemma collapse_from_incl b s c :
  In c (collapse_from b s) -> c = space \/ (In c s /\ isspace c = false).
Proof.
  revert b; induction s as [|x s IH]; intros b; simpl; [tauto|].
  destruct (isspace x) eqn:Hx.
  - destruct b; simpl; intros H.
    + destruct (IH _ H) as [->|[? ?]]; auto.
    + destruct H as [<-|H]; [auto|]. destruct (IH _ H) as [->|[? ?]]; auto.
  - simpl. intros [<-|H]; [auto|]. destruct (IH _ H) as [->|[? ?]]; auto.
Qed.

Section NormalizeText.
Context {U : Unicode}.

Lemma _strip_smart_quotes_map s : _strip_smart_quotes s = map fold_char s.
Proof.
  unfold _strip_smart_quotes, replace. rewrite !map_map.
  apply map_ext. intros c. unfold fold_char.
  destruct (N.eqb_spec c 8217) as [->|H1]; [reflexivity|].
  destruct (N.eqb_spec c 8216) as [->|H2]; [reflexivity|].
  destruct (N.eqb_spec c 8220) as [->|H3]; [reflexivity|].
  destruct (N.eqb_spec c 8221) as [->|H4]; [reflexivity|].
  destruct (N.eqb_spec c 8211) as [->|H5]; [reflexivity|].
  destruct (N.eqb_spec c 8212) as [->|H6]; [reflexivity|].
  apply N.eqb_neq in H1, H2, H3, H4, H5, H6.
  repeat (first [rewrite H1 | rewrite H2 | rewrite H3 | rewrite H4
                | rewrite H5 | rewrite H6]; cbv iota).
  reflexivity.
Qed.

Lemma fold_char_cases c :
  (fold_char c = c /\ smart c = false)
  \/ (smart c = true /\ In (fold_char c) [34; 39; 45]%N).
Proof.
  unfold fold_char, smart.
  repeat match goal with
         | |- context [(?a =? ?b)%N] => destruct (N.eqb_spec a b); subst; simpl
         end; auto 10.
Qed.

Lemma fold_char_not_smart c : smart (fold_char c) = false.
Proof.
  destruct (fold_char_cases c) as [[-> H]|[_ H]]; [exact H|].
  simpl in H. decompose [or] H; try contradiction;
    match goal with E : _ = fold_char c |- _ => rewrite <- E end; reflexivity.
Qed.

Lemma _strip_smart_quotes_fixed s :
  (forall c, In c s -> smart c = false) -> _strip_smart_quotes s = s.
Proof.
  intros H. rewrite _strip_smart_quotes_map. rewrite <- (map_id s) at 2.
  apply map_ext_in. intros c Hc.
  destruct (fold_char_cases c) as [[E _]|[E _]]; [exact E|].
  rewrite (H c Hc) in E. discriminate.
Qed.

Lemma normalized_nil : normalized [].
Proof. split; [intros c []|]. split; [reflexivity|]. split; exact I. Qed.

Lemma punct_to_space_char s c :
  In c (punct_to_space s) ->
  (c = space \/ is_word c = true \/ isspace c = true)
  /\ (c = space \/ In c s).
Proof.
  unfold punct_to_space. rewrite in_map_iff. intros (x & <- & Hx).
  destruct (is_word x || isspace x) eqn:E; [|auto].
  apply orb_true_iff in E. tauto.
Qed.

Lemma normalize_text_char s c :
  In c (normalize_text s) ->
  ((c = space \/ (isspace c = false /\ is_word c = true)) /\ smart c = false)
  /\ In c ([32; 34; 39; 45]%N ++ str_lower s).
Proof.
  destruct s as [|x s]; [intros []|]. unfold normalize_text.
  set (u := str_lower (x :: s)). intros Hc.
  apply strip_incl in Hc. apply collapse_from_incl in Hc.
  destruct Hc as [->|[Hc Hsp]].
  { repeat split; simpl; auto. }
  apply punct_to_space_char in Hc. destruct Hc as [Hw [->|Hin]].
  { repeat split; simpl; auto. }
  rewrite _strip_smart_quotes_map in Hin. apply in_map_iff in Hin.
  destruct Hin as (y & <- & Hy). repeat split.
  - destruct Hw as [Hw|[Hw|Hw]]; auto. congruence.
  - apply fold_char_not_smart.
  - destruct (fold_char_cases y) as [[-> _]|[_ H]].
    + apply in_or_app. now right.
    + apply in_or_app. left. simpl in *. tauto.
Qed.

Lemma normalize_text_normalized s : normalized (normalize_text s).
Proof.
  split; [intros c Hc; apply (normalize_text_char s c Hc)|].
  destruct s as [|x s]; [split; [reflexivity | split; exact I]|].
  unfold normalize_text. split.
  - eapply collapsed_strip. apply collapse_from_collapsed.
  - apply strip_trimmed.
Qed.

Lemma normalized_fixed t :
  normalized t -> str_lower t = t -> normalize_text t = t.
Proof.
  intros (Hch & Hcol & Htr) Hlow. destruct t as [|x t]; [reflexivity|].
  unfold normalize_text. rewrite Hlow.
  rewrite _strip_smart_quotes_fixed by (intros c Hc; apply (Hch c Hc)).
  assert (Hp : punct_to_space (x :: t) = x :: t).
  { unfold punct_to_space. rewrite <- (map_id (x :: t)) at 2.
    apply map_ext_in. intros c Hc.
    destruct (Hch c Hc) as [[->|[_ Hw]] _];
      [now destruct (is_word space || isspace space)|]. now rewrite Hw. }
  rewrite Hp. unfold collapse_ws. rewrite (collapsed_fixed _ _ Hcol).
  now apply trimmed_fixed.
Qed.

(** C6. [normalize_text] is idempotent: normalizing a normalized string
    gives the same string.  (It is a function of its argument alone: the
    embedding has no state for it to read or write.) *)
Theorem normalize_text_idempotent :
  lower_stable ->
  forall s, normalize_text (normalize_text s) = normalize_text s.
Proof.
  intros Hlow s. apply normalized_fixed.
  - apply normalize_text_normalized.
  - apply (Hlow s). intros c Hc. apply (normalize_text_char s c Hc).
Qed.

End NormalizeText.

Lemma ascii_lower_stable : @lower_stable ascii_unicode.
Proof.
  intros s t Hincl. simpl. rewrite <- (map_id t) at 2.
  apply map_ext_in. intros c Hc. apply Hincl in Hc.
  apply in_app_or in Hc. destruct Hc as [Hc|Hc].
  - simpl in Hc. decompose [or] Hc; subst; try reflexivity; contradiction.
  - simpl in Hc. apply in_map_iff in Hc. destruct Hc as (x & <- & _).
    unfold ascii_lower_char.
    destruct ((65 <=? x) && (x <=? 90))%N eqn:E.
    + apply andb_true_iff in E. destruct E as [E1 E2].
      apply N.leb_le in E1, E2.
      replace ((65 <=? x + 32) && (x + 32 <=? 90))%N with false; [reflexivity|].
      symmetry. apply andb_false_iff. right. apply N.leb_gt. lia.
    + now rewrite E.
Qed.

Lemma normalize_text_idempotent_witness :
  @normalize_text ascii_unicode (normalize_text (str "  What's the DEAL -- with Dune?! "))
  = normalize_text (str "  What's the DEAL -- with Dune?! ")
  /\ @normalize_text ascii_unicode (str "  What's the DEAL -- with Dune?! ")
     = str "what s the deal with dune".
Proof.
  split.
  - apply (@normalize_text_idempotent ascii_unicode ascii_lower_stable).
  - reflexivity.
Defined.

(* ===================================================================== *)
(** ** Word-boundary search *)
(* ===================================================================== *)

Section Search.
Context {U : Unicode}.

Lemma last_word_cons b c x : last_word b (c :: x) = last_word (is_word c) x.
Proof.
  destruct x as [|y x]; [reflexivity|].
  unfold last_word. change (rev (c :: y :: x)) with (rev (y :: x) ++ [c]).
  destruct (rev (y :: x)) as [|z r] eqn:E; [|reflexivity].
  apply (f_equal (@length _)) in E. rewrite length_rev in E. discriminate.
Qed.

Lemma skipn_length_app (p r : pystr) : skipn (length p) (p ++ r) = r.
Proof. induction p; simpl; auto. Qed.

Lemma match_here_spec p prevw s :
  match_here p prevw s = true <->
  exists post, s = p ++ post
               /\ boundary prevw (p ++ post) = true
               /\ boundary (last_word prevw p) post = true.
Proof.
  unfold match_here. rewrite !andb_true_iff, starts_with_app. split.
  - intros [[Hb [r ->]] Ha]. rewrite skipn_length_app in Ha. eauto.
  - intros (post & -> & Hb & Ha). rewrite skipn_length_app. eauto.
Qed.

Lemma search_from_spec p prevw s :
  search_from p prevw s = true <->
  exists pre post,
    s = pre ++ p ++ post
    /\ boundary (last_word prevw pre) (p ++ post) = true
    /\ boundary (last_word prevw (pre ++ p)) post = true.
Proof.
  revert prevw; induction s as [|c s IH]; intros prevw.
  - simpl. rewrite orb_false_r, match_here_spec. split.
    + intros (post & E & Hb & Ha). exists [], post. auto.
    + intros (pre & post & E & Hb & Ha).
      destruct pre; [|discriminate]. simpl in *. eauto.
  - simpl. rewrite orb_true_iff, match_here_spec, IH. split.
    + intros [(post & E & Hb & Ha)|(pre & post & E & Hb & Ha)].
      * exists [], post. auto.
      * exists (c :: pre), post. cbn [app]. rewrite !last_word_cons, E. auto.
    + intros (pre & post & E & Hb & Ha). destruct pre as [|x pre].
      * left. simpl in *. eauto.
      * right. simpl in E. injection E as <- E.
        cbn [app] in Ha. rewrite last_word_cons in Hb, Ha. eauto.
Qed.

(** [re.search] with the word-bounded pattern succeeds exactly when the
    phrase occurs between word boundaries. *)
Lemma re_search_wb_spec p s : re_search_wb p s = true <-> occurs_wb p s.
Proof. apply search_from_spec. Qed.

Lemma occurs_wb_nil_msg p : p <> [] -> ~ occurs_wb p [].
Proof.
  intros Hp (pre & post & E & _). symmetry in E.
  apply app_eq_nil in E. destruct E as [_ E].
  apply app_eq_nil in E. tauto.
Qed.

End Search.

(* ===================================================================== *)
(** ** The stable sort and the containment tier *)
(* ===================================================================== *)

Section Containment.
Context {U : Unicode} {D : Difflib} {L : Loaded}.

Lemma hd_insert_desc (A : Type) (x : nat * A) l :
  hd_error (insert_desc x l)
  = match hd_error l with
    | Some y => if fst x <? fst y then Some y else Some x
    | None => Some x
    end.
Proof. destruct l as [|y l]; simpl; [reflexivity|]. now destruct (fst x <? fst y). Qed.

Lemma insert_desc_In (A : Type) (x y : nat * A) l :
  In y (insert_desc x l) <-> y = x \/ In y l.
Proof.
  induction l as [|z l IH]; simpl; [intuition auto|].
  destruct (fst x <? fst z); simpl; rewrite ?IH; intuition auto.
Qed.

Lemma sort_desc_In (A : Type) (y : nat * A) l : In y (sort_desc l) <-> In y l.
Proof.
  induction l as [|x l IH]; simpl; [tauto|].
  rewrite insert_desc_In, IH. intuition auto.
Qed.

Lemma candidate_of_spec msg nt b :
  (candidate_of msg (nt, b) = [(length nt, b)] /\ title_in nt msg)
  \/ (candidate_of msg (nt, b) = [] /\ ~ title_in nt msg).
Proof.
  unfold title_in. simpl. destruct nt as [|c nt].
  - right. split; [reflexivity|]. intros [H _]. now apply H.
  - destruct (re_search_wb (c :: nt) msg) eqn:E.
    + left. repeat split; [discriminate|]. now apply re_search_wb_spec.
    + right. split; [reflexivity|]. intros [_ H].
      apply re_search_wb_spec in H. congruence.
Qed.

Lemma sorted_candidates_head (idx : list (pystr * book)) msg :
  match hd_error (sort_desc (flat_map (candidate_of msg) idx)) with
  | None => forall nt b, In (nt, b) idx -> ~ title_in nt msg
  | Some (k, b) =>
      exists i nt,
        nth_error idx i = Some (nt, b) /\ k = length nt /\ title_in nt msg
        /\ forall j nt' b',
             nth_error idx j = Some (nt', b') -> title_in nt' msg ->
             length nt' <= k /\ (j < i -> length nt' < k)
  end.
Proof.
  induction idx as [|[nt0 b0] idx IH]; cbn [flat_map].
  - intros nt b [].
  - destruct (candidate_of_spec msg nt0 b0) as [[-> Hin]|[-> Hout]];
      cbn [app sort_desc fold_right]; fold (sort_desc (flat_map (candidate_of msg) idx)).
    + rewrite hd_insert_desc.
      destruct (hd_error (sort_desc (flat_map (candidate_of msg) idx)))
        as [[k b]|] eqn:Eh; cbn [fst].
      * destruct IH as (i & nt & Hi & -> & Hm & Hmax).
        destruct (length nt0 <? length nt) eqn:Elt.
        -- apply Nat.ltb_lt in Elt. exists (S i), nt.
           split; [exact Hi|]. split; [reflexivity|]. split; [exact Hm|].
           intros [|j] nt' b' Hj Hm'; cbn [nth_error] in Hj.
           ++ injection Hj as <- <-. lia.
           ++ pose proof (Hmax j nt' b' Hj Hm'). lia.
        -- apply Nat.ltb_ge in Elt. exists 0, nt0.
           split; [reflexivity|]. split; [reflexivity|]. split; [exact Hin|].
           intros [|j] nt' b' Hj Hm'; cbn [nth_error] in Hj.
           ++ injection Hj as <- <-. lia.
           ++ pose proof (Hmax j nt' b' Hj Hm'). lia.
      * exists 0, nt0.
        split; [reflexivity|]. split; [reflexivity|]. split; [exact Hin|].
        intros [|j] nt' b' Hj Hm'; cbn [nth_error] in Hj.
        -- injection Hj as <- <-. lia.
        -- apply nth_error_In in Hj. destruct (IH nt' b' Hj Hm').
    + destruct (hd_error (sort_desc (flat_map (candidate_of msg) idx)))
        as [[k b]|] eqn:Eh.
      * destruct IH as (i & nt & Hi & -> & Hm & Hmax).
        exists (S i), nt.
        split; [exact Hi|]. split; [reflexivity|]. split; [exact Hm|].
        intros [|j] nt' b' Hj Hm'; cbn [nth_error] in Hj.
        -- injection Hj as <- <-. contradiction.
        -- pose proof (Hmax j nt' b' Hj Hm'). lia.
      * intros nt b [E|Hin]; [injection E as <- <-; exact Hout | exact (IH nt b Hin)].
Qed.

Lemma candidates_flat_map msg : candidates msg = flat_map (candidate_of msg) BOOK_TITLE_INDEX.
Proof. unfold candidates. apply flat_map_ext. now intros [nt b]. Qed.

Lemma containment_tier_hd msg :
  containment_tier msg = option_map snd (hd_error (sort_desc (candidates msg))).
Proof.
  unfold containment_tier. destruct (sort_desc (candidates msg)) as [|[k b] l]; reflexivity.
Qed.

Lemma longest_first_unique msg i nt b i' nt' b' :
  longest_first msg i nt b -> longest_first msg i' nt' b' -> i = i' /\ nt = nt' /\ b = b'.
Proof.
  intros (Hi & Hm & Hmax) (Hi' & Hm' & Hmax').
  destruct (Hmax _ _ _ Hi' Hm') as [H1 H2].
  destruct (Hmax' _ _ _ Hi Hm) as [H3 H4].
  assert (i = i') by lia. subst i'. split; [reflexivity|]. split; congruence.
Qed.

Lemma containment_tier_some msg b :
  containment_tier msg = Some b <-> exists i nt, longest_first msg i nt b.
Proof.
  rewrite containment_tier_hd, candidates_flat_map.
  pose proof (sorted_candidates_head BOOK_TITLE_INDEX msg) as H.
  destruct (hd_error (sort_desc (flat_map (candidate_of msg) BOOK_TITLE_INDEX)))
    as [[k b0]|]; simpl.
  - destruct H as (i & nt & Hi & -> & Hm & Hmax).
    assert (Hlf : longest_first msg i nt b0).
    { split; [exact Hi|]. split; [exact Hm|]. exact Hmax. }
    split.
    + intros E. injection E as <-. eauto.
    + intros (i' & nt' & Hlf'). f_equal.
      now destruct (longest_first_unique Hlf Hlf') as (_ & _ & ->).
  - split; [discriminate|]. intros (i & nt & Hi & Hm & _).
    apply nth_error_In in Hi. destruct (H _ _ Hi Hm).
Qed.

Lemma containment_tier_none msg :
  containment_tier msg = None <->
  forall nt b, In (nt, b) BOOK_TITLE_INDEX -> ~ title_in nt msg.
Proof.
  rewrite containment_tier_hd, candidates_flat_map.
  pose proof (sorted_candidates_head BOOK_TITLE_INDEX msg) as H.
  destruct (hd_error (sort_desc (flat_map (candidate_of msg) BOOK_TITLE_INDEX)))
    as [[k b0]|]; simpl.
  - split; [discriminate|]. intros Hno.
    destruct H as (i & nt & Hi & _ & Hm & _).
    apply nth_error_In in Hi. destruct (Hno _ _ Hi Hm).
  - tauto.
Qed.

Lemma containment_tier_nil : containment_tier [] = None.
Proof.
  apply containment_tier_none. intros nt b _ [Hne Hocc].
  exact (occurs_wb_nil_msg Hne Hocc).
Qed.

(** When the containment tier finds a book, it is what the resolver
    returns. *)
Lemma find_book_containment message b :
  containment_tier (normalize_text message) = Some b ->
  find_book_in_message message = Some b.
Proof.
  intros H. unfold find_book_in_message.
  destruct message as [|c m]; [simpl in H; now rewrite containment_tier_nil in H|].
  destruct (normalize_text (c :: m)) as [|x t] eqn:E.
  - now rewrite containment_tier_nil in H.
  - now rewrite H.
Qed.

End Containment.

(** C1. The containment tier returns a book exactly when its index pair
    matches the normalized message between word boundaries with a non-empty
    title that is the longest among the matching titles and the first of
    that length in catalog order; it returns nothing exactly when no pair
    matches; what it returns is what the resolver returns.  With the titles
    "It" and "It Ends with Us", in either order, "it ends with us" resolves
    to "It Ends with Us". *)
Theorem containment_longest_match_wins :
  (forall (U : Unicode) (D : Difflib) (L : Loaded) (message : pystr),
      let msg_norm := normalize_text message in
      (forall b, containment_tier msg_norm = Some b <->
                 exists i nt, longest_first msg_norm i nt b)
      /\ (containment_tier msg_norm = None <->
          forall nt b, In (nt, b) BOOK_TITLE_INDEX -> ~ title_in nt msg_norm)
      /\ (forall b, containment_tier msg_norm = Some b ->
                    find_book_in_message message = Some b))
  /\ @find_book_in_message ascii_unicode gestalt shelf (str "it ends with us")
     = Some It_Ends_with_Us
  /\ @find_book_in_message ascii_unicode gestalt shelf_swapped (str "it ends with us")
     = Some It_Ends_with_Us
  /\ @containment_tier ascii_unicode shelf (str "it ends with us") = Some It_Ends_with_Us.
Proof.
  split; [|repeat split; reflexivity].
  intros U D L message msg_norm. split; [|split].
  - intros b. apply containment_tier_some.
  - apply containment_tier_none.
  - intros b. apply find_book_containment.
Qed.

(* ===================================================================== *)
(** ** The index, the equality tier and the fuzzy tiers *)
(* ===================================================================== *)

Section Tiers.
Context {U : Unicode} {D : Difflib} {L : Loaded}.

Lemma index_books : map snd BOOK_TITLE_INDEX = books_data.
Proof. unfold BOOK_TITLE_INDEX. rewrite map_map. simpl. apply map_id. Qed.

Lemma index_titles : titles_norm = map (fun b => normalize_title (title b)) books_data.
Proof. unfold titles_norm, BOOK_TITLE_INDEX. now rewrite map_map. Qed.

Lemma index_pair nt b :
  In (nt, b) BOOK_TITLE_INDEX <-> nt = normalize_title (title b) /\ In b books_data.
Proof.
  unfold BOOK_TITLE_INDEX. rewrite in_map_iff. split.
  - intros (x & E & Hx). injection E as <- <-. auto.
  - intros [-> Hb]. eauto.
Qed.

Lemma containment_tier_title msg b :
  containment_tier msg = Some b ->
  In b books_data /\ normalize_title (title b) <> [].
Proof.
  intros H. apply containment_tier_some in H.
  destruct H as (i & nt & Hi & [Hne _] & _).
  apply nth_error_In, index_pair in Hi. destruct Hi as [-> Hb]. auto.
Qed.

Lemma equality_tier_some msg b :
  equality_tier msg = Some b ->
  In b books_data /\ normalize_title (title b) = msg.
Proof.
  unfold equality_tier.
  destruct (find (fun '(nt, _) => str_eqb msg nt) BOOK_TITLE_INDEX) as [[nt b']|] eqn:E;
    [|discriminate].
  simpl. intros H. injection H as <-.
  apply find_some in E. destruct E as [Hin Heq].
  apply str_eqb_eq in Heq. subst nt.
  apply index_pair in Hin. destruct Hin as [-> Hb]. auto.
Qed.

(** *** The best scorer *)

Lemma scored_ltb_true p q : scored_ltb p q = true -> (fst p <= fst q)%Q.
Proof.
  unfold scored_ltb. destruct (fst p ?= fst q)%Q eqn:E; intros H.
  - apply Qeq_alt in E. rewrite E. apply Qle_refl.
  - apply Qlt_alt in E. now apply Qlt_le_weak.
  - discriminate.
Qed.

Lemma scored_ltb_false p q : scored_ltb p q = false -> (fst q <= fst p)%Q.
Proof.
  unfold scored_ltb. destruct (fst p ?= fst q)%Q eqn:E; intros H.
  - apply Qeq_alt in E. rewrite E. apply Qle_refl.
  - discriminate.
  - apply Qgt_alt in E. now apply Qlt_le_weak.
Qed.

Lemma fold_max_scored l p :
  let m := fold_left (fun best q => if scored_ltb best q then q else best) l p in
  (m = p \/ In m l) /\ (fst p <= fst m)%Q /\ forall q, In q l -> (fst q <= fst m)%Q.
Proof.
  revert p; induction l as [|q l IH]; intros p; simpl.
  - split; [auto|]. split; [apply Qle_refl|]. intros q [].
  - destruct (scored_ltb p q) eqn:E.
    + destruct (IH q) as (Hin & Hle & Hall).
      split; [destruct Hin as [Hin|Hin]; auto|]. split.
      * eapply Qle_trans; [apply scored_ltb_true, E | exact Hle].
      * intros q' [<-|Hq']; auto.
    + destruct (IH p) as (Hin & Hle & Hall).
      split; [destruct Hin as [Hin|Hin]; auto|]. split; [exact Hle|].
      intros q' [<-|Hq']; auto.
      eapply Qle_trans; [apply scored_ltb_false, E | exact Hle].
Qed.

Lemma max_scored_spec l :
  match max_scored l with
  | None => l = []
  | Some m => In m l /\ forall q, In q l -> (fst q <= fst m)%Q
  end.
Proof.
  destruct l as [|p l]; simpl; [reflexivity|].
  destruct (fold_max_scored l p) as (Hin & Hle & Hall).
  split; [destruct Hin as [Hin|Hin]; auto|].
  intros q [<-|Hq]; auto.
Qed.

Lemma scored_candidates word possibilities s x :
  In (s, x)
     (flat_map (fun x => if Qle_bool cutoff (ratio x word) then [(ratio x word, x)] else [])
               possibilities)
  <-> In x possibilities /\ (cutoff <= ratio x word)%Q /\ s = ratio x word.
Proof.
  rewrite in_flat_map. split.
  - intros (y & Hy & Hin). destruct (Qle_bool cutoff (ratio y word)) eqn:E; [|destruct Hin].
    destruct Hin as [Hin|[]]. injection Hin as <- <-.
    apply Qle_bool_iff in E. auto.
  - intros (Hx & Hc & ->). exists x. split; [exact Hx|].
    apply Qle_bool_iff in Hc. rewrite Hc. now left.
Qed.

(** [get_close_matches] returns at most one string: a possibility that
    scores at least the cutoff and at least as much as every other one;
    it returns none exactly when every possibility is below the cutoff. *)
Lemma get_close_matches_spec word possibilities :
  match get_close_matches word possibilities with
  | [] => forall y, In y possibilities -> (ratio y word < cutoff)%Q
  | x :: rest =>
      rest = [] /\ In x possibilities /\ (cutoff <= ratio x word)%Q
      /\ forall y, In y possibilities -> (ratio y word <= ratio x word)%Q
  end.
Proof.
  unfold get_close_matches.
  match goal with |- context [max_scored ?l] =>
    pose proof (max_scored_spec l) as H; destruct (max_scored l) as [[s x]|] eqn:E
  end.
  - destruct H as [Hin Hmax]. apply scored_candidates in Hin.
    destruct Hin as (Hx & Hc & ->). repeat split; auto.
    intros y Hy. destruct (Qlt_le_dec (ratio y word) cutoff) as [Hlt|Hge].
    + apply Qlt_le_weak. eapply Qlt_le_trans; eauto.
    + apply (Hmax (ratio y word, y)). apply scored_candidates. auto.
  - intros y Hy. destruct (Qlt_le_dec (ratio y word) cutoff) as [Hlt|Hge]; [exact Hlt|].
    assert (Hin : In (ratio y word, y)
              (flat_map (fun x => if Qle_bool cutoff (ratio x word)
                                  then [(ratio x word, x)] else []) possibilities))
      by (apply scored_candidates; auto).
    rewrite H in Hin. destruct Hin.
Qed.

Lemma index_spec v l :
  In v l ->
  exists i, index v l = Some i /\ nth_error l i = Some v
            /\ forall j, j < i -> nth_error l j <> Some v.
Proof.
  induction l as [|x l IH]; [intros []|]. intros Hin. simpl.
  destruct (str_eqb x v) eqn:E.
  - apply str_eqb_eq in E. subst x. exists 0. repeat split; auto. intros j Hj. lia.
  - assert (Hx : x <> v) by (intros ->; rewrite str_eqb_refl in E; discriminate).
    destruct Hin as [->|Hin]; [congruence|].
    destruct (IH Hin) as (i & Hi & Hn & Hfirst). exists (S i). rewrite Hi.
    repeat split; auto. intros [|j] Hj; simpl; [congruence|]. apply Hfirst. lia.
Qed.

(** The fuzzy tier answers with the first pair of the best-scoring title;
    the look-up by [index] cannot fail. *)
Lemma fuzzy_tier_spec q :
  match fuzzy_tier q with
  | Some b => exists i nt, best_match q i nt b
  | None => forall nt, In nt titles_norm -> (ratio nt q < cutoff)%Q
  end.
Proof.
  unfold fuzzy_tier. pose proof (get_close_matches_spec q titles_norm) as H.
  destruct (get_close_matches q titles_norm) as [|x rest]; [exact H|].
  destruct H as (_ & Hin & Hc & Hmax).
  destruct (index_spec _ _ Hin) as (i & -> & Hi & Hfirst).
  unfold titles_norm in Hi. rewrite nth_error_map in Hi.
  destruct (nth_error BOOK_TITLE_INDEX i) as [[nt b]|] eqn:E; [|discriminate].
  simpl in Hi. injection Hi as ->. simpl.
  exists i, x. repeat split; auto.
Qed.

Lemma fuzzy_tier_some q b :
  fuzzy_tier q = Some b -> exists i nt, best_match q i nt b.
Proof. intros H. pose proof (fuzzy_tier_spec q) as S. now rewrite H in S. Qed.

Lemma fuzzy_tier_none q :
  fuzzy_tier q = None <-> forall nt, In nt titles_norm -> (ratio nt q < cutoff)%Q.
Proof.
  pose proof (fuzzy_tier_spec q) as S. destruct (fuzzy_tier q) as [b|].
  - split; [discriminate|]. intros Hall.
    destruct S as (i & nt & Hi & _ & Hc & _).
    assert (Hin : In nt titles_norm).
    { unfold titles_norm. apply in_map_iff. exists (nt, b). split; [reflexivity|].
      eapply nth_error_In, Hi. }
    specialize (Hall nt Hin). exfalso. eapply Qlt_not_le; eauto.
  - tauto.
Qed.

Lemma fuzzy_tier_In q b : fuzzy_tier q = Some b -> In b books_data.
Proof.
  intros H. apply fuzzy_tier_some in H. destruct H as (i & nt & Hi & _).
  apply nth_error_In, index_pair in Hi. tauto.
Qed.

(** Past the first two tiers the resolver is the two fuzzy searches. *)
Lemma find_book_fuzzy message :
  normalize_text message <> [] ->
  containment_tier (normalize_text message) = None ->
  equality_tier (normalize_text message) = None ->
  find_book_in_message message
  = match fuzzy_tier (normalize_text message) with
    | Some b => Some b
    | None => fuzzy_tier (strip_leading_article (normalize_text message))
    end.
Proof.
  intros Hne Hc He. unfold find_book_in_message.
  destruct message as [|c m]; [now elim Hne|].
  destruct (normalize_text (c :: m)) as [|x t] eqn:E; [now elim Hne|].
  now rewrite Hc, He.
Qed.

(** Every book that the resolver returns is a catalog entry. *)
Lemma find_book_In message b :
  find_book_in_message message = Some b -> In b books_data.
Proof.
  unfold find_book_in_message. destruct message as [|c m]; [discriminate|].
  destruct (normalize_text (c :: m)) as [|x t]; [discriminate|].
  destruct (containment_tier (x :: t)) as [b1|] eqn:E1.
  { intros H. injection H as <-. now apply containment_tier_title in E1. }
  destruct (equality_tier (x :: t)) as [b2|] eqn:E2.
  { intros H. injection H as <-. now apply equality_tier_some in E2. }
  destruct (fuzzy_tier (x :: t)) as [b3|] eqn:E3.
  { intros H. injection H as <-. now apply fuzzy_tier_In in E3. }
  apply fuzzy_tier_In.
Qed.

End Tiers.

(** C7. The index has one pair for every catalog entry, in catalog order,
    whatever the entry's normalized title is; an entry whose normalized
    title is empty is never the answer of the containment tier, and when
    the resolver returns such an entry both the containment tier and the
    equality tier have failed on the message. *)
Theorem empty_title_indexed_but_unmatched :
  forall (U : Unicode) (D : Difflib) (L : Loaded),
    map snd BOOK_TITLE_INDEX = books_data
    /\ (forall b, In b books_data -> In (normalize_title (title b), b) BOOK_TITLE_INDEX)
    /\ forall message b,
         normalize_title (title b) = [] ->
         containment_tier (normalize_text message) <> Some b
         /\ (normalize_text message <> [] ->
             equality_tier (normalize_text message) <> Some b)
         /\ (find_book_in_message message = Some b ->
             containment_tier (normalize_text message) = None
             /\ equality_tier (normalize_text message) = None).
Proof.
  intros U D L. split; [apply index_books|]. split.
  { intros b Hb. now apply index_pair. }
  intros message b Hempty.
  assert (Hc : containment_tier (normalize_text message) <> Some b).
  { intros H. apply containment_tier_title in H. tauto. }
  assert (He : normalize_text message <> [] ->
               equality_tier (normalize_text message) <> Some b).
  { intros Hne H. apply equality_tier_some in H. destruct H as [_ H]. congruence. }
  split; [exact Hc|]. split; [exact He|].
  unfold find_book_in_message. destruct message as [|c m]; [discriminate|].
  destruct (normalize_text (c :: m)) as [|x t] eqn:E; [discriminate|].
  destruct (containment_tier (x :: t)) as [b1|] eqn:E1.
  { intros H. injection H as ->. now elim Hc. }
  destruct (equality_tier (x :: t)) as [b2|] eqn:E2.
  { intros H. injection H as ->. elim He; [discriminate | reflexivity]. }
  auto.
Qed.

Lemma empty_title_indexed_but_unmatched_witness :
  @BOOK_TITLE_INDEX ascii_unicode odd_shelf = [([], Untitled); (str "dune", Dune)]
  /\ @containment_tier ascii_unicode odd_shelf
       (@normalize_text ascii_unicode (str "?! dune")) <> Some Untitled
  /\ @find_book_in_message ascii_unicode gestalt odd_shelf (str "?! dune") = Some Dune.
Proof.
  split; [vm_compute; reflexivity|]. split; [|vm_compute; reflexivity].
  assert (H : @normalize_title ascii_unicode (title Untitled) = [])
    by (vm_compute; reflexivity).
  exact (proj1 (proj2 (proj2 (@empty_title_indexed_but_unmatched
                                ascii_unicode gestalt odd_shelf))
                  (str "?! dune") Untitled H)).
Defined.

(** C4. When the containment and the equality tier fail on a message, the
    resolver is the fuzzy search of the normalized message against the
    normalized titles and, when that finds nothing, the same search of the
    message without its leading article.  The entry returned is the first
    one of a title whose score is at least 0.73 and at least the score of
    every other title; a search finds nothing exactly when every title
    scores below 0.73. *)
Theorem fuzzy_tiers_threshold :
  forall (U : Unicode) (D : Difflib) (L : Loaded) (message : pystr),
    let msg_norm := normalize_text message in
    msg_norm <> [] ->
    containment_tier msg_norm = None ->
    equality_tier msg_norm = None ->
    find_book_in_message message
    = match fuzzy_tier msg_norm with
      | Some b => Some b
      | None => fuzzy_tier (strip_leading_article msg_norm)
      end
    /\ (forall b,
          find_book_in_message message = Some b ->
          exists q i nt,
            (q = msg_norm
             \/ (q = strip_leading_article msg_norm /\ fuzzy_tier msg_norm = None))
            /\ best_match q i nt b)
    /\ (forall q, fuzzy_tier q = None <->
                  forall nt, In nt titles_norm -> (ratio nt q < cutoff)%Q)
    /\ (forall q b, fuzzy_tier q = Some b -> exists i nt, best_match q i nt b).
Proof.
  intros U D L message msg_norm Hne Hc He.
  pose proof (find_book_fuzzy message Hne Hc He) as Hfind. fold msg_norm in Hfind.
  split; [exact Hfind|]. split; [|split].
  - intros b Hb. rewrite Hfind in Hb.
    destruct (fuzzy_tier msg_norm) as [b1|] eqn:E1.
    + injection Hb as <-. apply fuzzy_tier_some in E1.
      destruct E1 as (i & nt & H). exists msg_norm, i, nt. auto.
    + apply fuzzy_tier_some in Hb. destruct Hb as (i & nt & H).
      exists (strip_leading_article msg_norm), i, nt. auto.
  - apply fuzzy_tier_none.
  - apply fuzzy_tier_some.
Qed.

Lemma fuzzy_tiers_threshold_witness :
  @find_book_in_message ascii_unicode gestalt shelf (str "The Hobit!") = Some The_Hobbit
  /\ @fuzzy_tier ascii_unicode gestalt shelf (str "the hobit") = None
  /\ @fuzzy_tier ascii_unicode gestalt shelf (str "hobit") = Some The_Hobbit
  /\ @fuzzy_tier ascii_unicode gestalt shelf (str "dun") = Some Dune.
Proof.
  split; [|repeat split; vm_compute; reflexivity].
  assert (H1 : @normalize_text ascii_unicode (str "The Hobit!") <> [])
    by (vm_compute; discriminate).
  assert (H2 : @containment_tier ascii_unicode shelf
                 (@normalize_text ascii_unicode (str "The Hobit!")) = None)
    by (vm_compute; reflexivity).
  assert (H3 : @equality_tier ascii_unicode shelf
                 (@normalize_text ascii_unicode (str "The Hobit!")) = None)
    by (vm_compute; reflexivity).
  destruct (@fuzzy_tiers_threshold ascii_unicode gestalt shelf (str "The Hobit!")
              H1 H2 H3) as [E _].
  rewrite E. vm_compute. reflexivity.
Defined.

(* ===================================================================== *)
(** ** The article-stripped tier *)
(* ===================================================================== *)

Section ArticleTier.
Context {U : Unicode} {D : Difflib} {L : Loaded}.

Lemma after_article_some art s r :
  after_article art s = Some r ->
  exists c rest, s = art ++ c :: rest /\ isspace c = true.
Proof.
  unfold after_article. destruct (starts_with art s) eqn:E; [|discriminate].
  apply starts_with_app in E. destruct E as [t ->]. rewrite skipn_length_app.
  destruct t as [|c rest]; [discriminate|].
  destruct (isspace c) eqn:Hc; [|discriminate]. eauto.
Qed.

Lemma strip_leading_article_cases s :
  begins_with_article s \/ strip_leading_article s = s.
Proof.
  unfold strip_leading_article.
  destruct (after_article (str "the") s) as [r|] eqn:E1.
  { left. apply after_article_some in E1. destruct E1 as (c & rest & E & Hc).
    exists (str "the"), c, rest. simpl. auto. }
  destruct (after_article (str "a") s) as [r|] eqn:E2.
  { left. apply after_article_some in E2. destruct E2 as (c & rest & E & Hc).
    exists (str "a"), c, rest. simpl. auto. }
  destruct (after_article (str "an") s) as [r|] eqn:E3.
  { left. apply after_article_some in E3. destruct E3 as (c & rest & E & Hc).
    exists (str "an"), c, rest. simpl. auto. }
  now right.
Qed.

Lemma strip_leading_article_fixed s :
  ~ begins_with_article s -> strip_leading_article s = s.
Proof. intros H. destruct (strip_leading_article_cases s); tauto. Qed.

Lemma without_article_tier_same message :
  strip_leading_article (normalize_text message) = normalize_text message ->
  find_book_in_message message = find_book_without_article_tier message.
Proof.
  intros Hfix. unfold find_book_in_message, find_book_without_article_tier.
  destruct message as [|c m]; [reflexivity|].
  destruct (normalize_text (c :: m)) as [|x t] eqn:E; [reflexivity|].
  destruct (containment_tier (x :: t)); [reflexivity|].
  destruct (equality_tier (x :: t)); [reflexivity|].
  rewrite Hfix. now destruct (fuzzy_tier (x :: t)).
Qed.

End ArticleTier.

(** C10. When the normalized message does not begin with "the", "a" or
    "an" followed by whitespace, stripping the article leaves it as it is,
    so the article-stripped search is the plain fuzzy search again and
    fails when that one failed, and the resolver with the article tier
    returns what the resolver without it returns.  The two resolvers can
    differ only on a message whose normalized form begins with such an
    article. *)
Theorem article_tier_only_for_articles :
  forall (U : Unicode) (D : Difflib) (L : Loaded) (message : pystr),
    let msg_norm := normalize_text message in
    (~ begins_with_article msg_norm ->
     strip_leading_article msg_norm = msg_norm
     /\ (fuzzy_tier msg_norm = None ->
         fuzzy_tier (strip_leading_article msg_norm) = None)
     /\ find_book_in_message message = find_book_without_article_tier message)
    /\ (find_book_in_message message <> find_book_without_article_tier message ->
        begins_with_article msg_norm).
Proof.
  intros U D L message msg_norm. split.
  - intros Hno. pose proof (strip_leading_article_fixed Hno) as Hfix.
    split; [exact Hfix|]. split.
    + now rewrite Hfix.
    + now apply without_article_tier_same.
  - intros Hdiff. destruct (strip_leading_article_cases msg_norm) as [H|H]; [exact H|].
    elim Hdiff. now apply without_article_tier_same.
Qed.

Lemma no_article_in_hobit : ~ begins_with_article (str "hobit").
Proof.
  intros (art & c & rest & Hart & E & _). simpl in Hart.
  decompose [or] Hart; subst; try discriminate; contradiction.
Qed.

Lemma article_tier_only_for_articles_witness :
  @find_book_in_message ascii_unicode gestalt shelf (str "Hobit")
  = @find_book_without_article_tier ascii_unicode gestalt shelf (str "Hobit")
  /\ @find_book_in_message ascii_unicode gestalt shelf (str "the hobit") = Some The_Hobbit
  /\ @find_book_without_article_tier ascii_unicode gestalt shelf (str "the hobit") = None.
Proof.
  split; [|split; reflexivity].
  apply (@article_tier_only_for_articles ascii_unicode gestalt shelf (str "Hobit")).
  exact no_article_in_hobit.
Defined.

(* ===================================================================== *)
(** ** Replies and the memory cell *)
(* ===================================================================== *)

Section Replies.
Context {U : Unicode} {D : Difflib} {L : Loaded}.

Lemma existsb_str_eqb v l : existsb (str_eqb v) l = true <-> In v l.
Proof.
  rewrite existsb_exists. split.
  - intros (x & Hx & E). apply str_eqb_eq in E. now subst.
  - intros H. exists v. split; [exact H | apply str_eqb_refl].
Qed.

Lemma book_intent_dispatch intent :
  In intent book_intents ->
  str_eqb intent (str "greeting") = false
  /\ str_eqb intent (str "random_book") = false
  /\ existsb (str_eqb intent) book_intents = true.
Proof.
  intros H. split; [|split; [|now apply existsb_str_eqb]];
    simpl in H; decompose [or] H; subst; try reflexivity; contradiction.
Qed.

Lemma unhandled_dispatch intent :
  ~ In intent handled_intents ->
  str_eqb intent (str "greeting") = false
  /\ str_eqb intent (str "random_book") = false
  /\ existsb (str_eqb intent) book_intents = false.
Proof.
  intros H. repeat split.
  - destruct (str_eqb intent (str "greeting")) eqn:E; [|reflexivity].
    apply str_eqb_eq in E. elim H. left. now symmetry.
  - destruct (str_eqb intent (str "random_book")) eqn:E; [|reflexivity].
    apply str_eqb_eq in E. elim H. right. left. now symmetry.
  - destruct (existsb (str_eqb intent) book_intents) eqn:E; [|reflexivity].
    apply existsb_str_eqb in E. elim H. right. right. exact E.
Qed.

(** The branch of the book intents, case by case. *)
Lemma book_intent_response last_book rnd user_input :
  In (predict_intent user_input) book_intents ->
  get_bot_response last_book rnd user_input
  = match extract_book_from_input user_input with
    | Some b => (Ret (Some (book_reply (predict_intent user_input) b)), Some b)
    | None =>
        match last_book with
        | Some b => (Ret (Some (book_reply (predict_intent user_input) b)), Some b)
        | None => (Ret (Some please_mention), None)
        end
    end.
Proof.
  intros H. destruct (book_intent_dispatch H) as (E1 & E2 & E3).
  unfold get_bot_response. rewrite E1, E2, E3.
  destruct (extract_book_from_input user_input); [reflexivity|].
  now destruct last_book.
Qed.

(** A label without a branch: the function falls off its end. *)
Lemma unhandled_intent_response last_book rnd user_input :
  ~ In (predict_intent user_input) handled_intents ->
  get_bot_response last_book rnd user_input = (Ret None, last_book).
Proof.
  intros H. destruct (unhandled_dispatch H) as (E1 & E2 & E3).
  unfold get_bot_response. now rewrite E1, E2, E3.
Qed.

Lemma random_choice_In (A : Type) rnd (seq : list A) x :
  random_choice rnd seq = Ret x -> In x seq.
Proof.
  unfold random_choice. destruct seq as [|y seq]; [discriminate|].
  destruct (nth_error (y :: seq) (rnd mod length (y :: seq))) eqn:E; [|discriminate].
  intros H. injection H as <-. eapply nth_error_In, E.
Qed.

Lemma extract_book_In user_input b :
  extract_book_from_input user_input = Some b -> In b books_data.
Proof. apply find_book_In. Qed.

(** One call keeps the memory inside the catalog, whether it returns or
    raises. *)
Lemma get_bot_response_memory last_book rnd user_input :
  memory_ok last_book ->
  memory_ok (snd (get_bot_response last_book rnd user_input)).
Proof.
  intros Hok. unfold get_bot_response.
  destruct (str_eqb (predict_intent user_input) (str "greeting")).
  { destruct greeting_responses as [|r rs]; [exact Hok|].
    now destruct (random_choice rnd (r :: rs)). }
  destruct (str_eqb (predict_intent user_input) (str "random_book")).
  { destruct (random_choice rnd books_data) as [b|e] eqn:E; [|exact Hok].
    apply random_choice_In in E. now destruct (summary b). }
  destruct (existsb (str_eqb (predict_intent user_input)) book_intents); [|exact Hok].
  destruct (extract_book_from_input user_input) as [b|] eqn:E.
  - apply extract_book_In in E. exact E.
  - now destruct last_book.
Qed.

Lemma run_memory last_book requests :
  memory_ok last_book -> memory_ok (run last_book requests).
Proof.
  revert last_book; induction requests as [|[rnd ui] rest IH]; intros last_book Hok.
  - exact Hok.
  - simpl. apply IH. now apply get_bot_response_memory.
Qed.

(** After a call that left [b] in the memory, a book intent whose message
    names no title is answered about [b], and [b] stays in the memory. *)
Lemma memory_fallback last_book rnd user_input b rnd' user_input' :
  snd (get_bot_response last_book rnd user_input) = Some b ->
  In (predict_intent user_input') book_intents ->
  extract_book_from_input user_input' = None ->
  get_bot_response (snd (get_bot_response last_book rnd user_input)) rnd' user_input'
  = (Ret (Some (book_reply (predict_intent user_input') b)), Some b).
Proof.
  intros Hmem Hintent Hnone. rewrite (book_intent_response _ _ _ Hintent).
  now rewrite Hnone, Hmem.
Qed.

(** The request boundary: a reply in every case. *)
Lemma get_bot_reply_cases last_book rnd message :
  let user_input := match message with Some m => m | None => [] end in
  match get_bot_response last_book rnd user_input with
  | (Ret r, m) =>
      get_bot_reply last_book rnd message = ({| body := r; status := 200 |}, m)
  | (Raise e, m) =>
      get_bot_reply last_book rnd message
      = ({| body := Some server_error; status := 500 |}, m)
  end.
Proof.
  cbv zeta. unfold get_bot_reply. destruct message as [m0|]; cbv iota.
  all: match goal with
  | |- context [get_bot_response ?a ?b ?c] =>
      destruct (get_bot_response a b c) as [[r|e] m]
  end; reflexivity.
Qed.

End Replies.

(** C3. For a book intent: when the message resolves to an entry, the
    reply is about that entry and the memory holds it afterwards; when it
    resolves to none, the reply is about the remembered entry and the
    memory is left as it was; with neither, the reply is "Please mention
    the book title." *)
Theorem book_intent_memory_policy :
  forall (U : Unicode) (D : Difflib) (L : Loaded)
         (last_book : option book) (rnd : nat) (user_input : pystr),
    In (predict_intent user_input) book_intents ->
    match extract_book_from_input user_input with
    | Some b =>
        get_bot_response last_book rnd user_input
        = (Ret (Some (book_reply (predict_intent user_input) b)), Some b)
    | None =>
        snd (get_bot_response last_book rnd user_input) = last_book
        /\ match last_book with
           | Some b =>
               fst (get_bot_response last_book rnd user_input)
               = Ret (Some (book_reply (predict_intent user_input) b))
           | None =>
               fst (get_bot_response last_book rnd user_input)
               = Ret (Some please_mention)
           end
    end.
Proof.
  intros U D L last_book rnd user_input H.
  rewrite (book_intent_response last_book rnd user_input H).
  destruct (extract_book_from_input user_input); [reflexivity|].
  now destruct last_book.
Qed.

Lemma book_intent_memory_policy_witness :
  @get_bot_response ascii_unicode gestalt shelf (Some Dune) 0 (str "Who wrote The Hobbit?")
  = (Ret (Some ([9997; 65039]%N ++ str " Author of The Hobbit is J. R. R. Tolkien.")),
     Some The_Hobbit)
  /\ @get_bot_response ascii_unicode gestalt shelf (Some The_Hobbit) 0 (str "how many pages?")
     = (Ret (Some ([128196%N] ++ str " The Hobbit has 310.")), Some The_Hobbit)
  /\ @get_bot_response ascii_unicode gestalt shelf None 0 (str "how many pages?")
     = (Ret (Some (str "Please mention the book title.")), None).
Proof.
  split.
  - apply (@book_intent_memory_policy ascii_unicode gestalt shelf (Some Dune) 0
             (str "Who wrote The Hobbit?")).
    vm_compute. tauto.
  - split; reflexivity.
Defined.

(** C9. The memory cell is [None] or an entry of the catalog: every call
    of [get_bot_response] keeps it so, and so does every run of calls from
    the initial [None]. *)
Theorem last_book_in_catalog :
  forall (U : Unicode) (D : Difflib) (L : Loaded),
    memory_ok None
    /\ (forall last_book rnd user_input,
          memory_ok last_book ->
          memory_ok (snd (get_bot_response last_book rnd user_input)))
    /\ (forall requests, memory_ok (run None requests))
    /\ (forall user_input b,
          extract_book_from_input user_input = Some b -> In b books_data).
Proof.
  intros U D L. split; [exact I|]. split; [|split].
  - apply get_bot_response_memory.
  - intros requests. now apply run_memory.
  - apply extract_book_In.
Qed.

Lemma last_book_in_catalog_witness :
  @run ascii_unicode gestalt shelf None
     [(2, str "surprise me"); (0, str "who wrote it"); (0, str "how many pages in the hobit")]
  = Some The_Hobbit
  /\ @memory_ok shelf (Some The_Hobbit).
Proof.
  split; [reflexivity|].
  apply (proj1 (proj2 (proj2 (@last_book_in_catalog ascii_unicode gestalt shelf)))
           [(2, str "surprise me"); (0, str "who wrote it");
            (0, str "how many pages in the hobit")]).
Defined.

(** C8. At the request boundary, whenever [get_bot_response] raises, the
    reply is the generic error text with status 500, and the handler itself
    returns a reply for every request; when [get_bot_response] returns, its
    value is the reply, with status 200. *)
Theorem boundary_catches_exceptions :
  forall (U : Unicode) (D : Difflib) (L : Loaded)
         (last_book : option book) (rnd : nat) (message : option pystr)
         (e : exn) (last_book' : option book),
    get_bot_response last_book rnd (match message with Some m => m | None => [] end)
    = (Raise e, last_book') ->
    get_bot_reply last_book rnd message
    = ({| body := Some server_error; status := 500 |}, last_book').
Proof.
  intros U D L last_book rnd message e last_book' H.
  pose proof (get_bot_reply_cases last_book rnd message) as C.
  destruct message as [m|]; cbv zeta iota in C, H; now rewrite H in C.
Qed.

Lemma boundary_catches_exceptions_witness :
  @get_bot_response ascii_unicode gestalt empty_shelf None 0 (str "surprise me")
  = (Raise IndexError, None)
  /\ @get_bot_reply ascii_unicode gestalt empty_shelf None 0 (Some (str "surprise me"))
     = ({| body := Some server_error; status := 500 |}, None).
Proof.
  split; [reflexivity|].
  apply (@boundary_catches_exceptions ascii_unicode gestalt empty_shelf None 0
           (Some (str "surprise me")) IndexError None).
  reflexivity.
Defined.

(** C2 (the code departs from it). A label outside the handled set reaches
    no [return]: the value of [get_bot_response] is [None], not a fallback
    text, and the boundary sends it on with status 200. *)
Theorem unhandled_intent_returns_None :
  forall (U : Unicode) (D : Difflib) (L : Loaded)
         (last_book : option book) (rnd : nat) (user_input : pystr),
    ~ In (predict_intent user_input) handled_intents ->
    get_bot_response last_book rnd user_input = (Ret None, last_book)
    /\ get_bot_reply last_book rnd (Some user_input)
       = ({| body := None; status := 200 |}, last_book).
Proof.
  intros U D L last_book rnd user_input H.
  pose proof (unhandled_intent_response last_book rnd user_input H) as E.
  split; [exact E|]. unfold get_bot_reply. now rewrite E.
Qed.

Lemma unhandled_intent_returns_None_witness :
  first_word_intent (str "bye") = str "goodbye"
  /\ @get_bot_response ascii_unicode gestalt shelf None 0 (str "bye") = (Ret None, None)
  /\ @get_bot_reply ascii_unicode gestalt shelf None 0 (Some (str "bye"))
     = ({| body := None; status := 200 |}, None).
Proof.
  split; [reflexivity|].
  apply (@unhandled_intent_returns_None ascii_unicode gestalt shelf None 0 (str "bye")).
  vm_compute. intros H. decompose [or] H; try discriminate; contradiction.
Defined.

(* ===================================================================== *)
(** ** Helper-phrase removal *)
(* ===================================================================== *)

Section HelperPhrases.
Context {U : Unicode}.

Lemma sub_from_skip p w k s :
  sub_from p w k s = sub_from p (last_word w (firstn k s)) 0 (skipn k s).
Proof.
  revert w k; induction s as [|c s IH]; intros w k.
  - destruct k; reflexivity.
  - destruct k as [|k]; [reflexivity|].
    cbn [sub_from firstn skipn]. rewrite IH. now rewrite last_word_cons.
Qed.

Lemma firstn_length_app (p r : pystr) : firstn (length p) (p ++ r) = p.
Proof. induction p; simpl; congruence. Qed.

(** One step of the scan at a match: the phrase is cut and the scan goes
    on behind it. *)
Lemma sub_from_match x p w r :
  match_here (x :: p) w (x :: p ++ r) = true ->
  sub_from (x :: p) w 0 (x :: p ++ r)
  = sub_from (x :: p) (last_word (is_word x) p) 0 r.
Proof.
  intros H. cbn [sub_from]. rewrite H.
  replace (length (x :: p) - 1) with (length p) by (simpl; lia).
  rewrite sub_from_skip. now rewrite firstn_length_app, skipn_length_app.
Qed.

Lemma sub_from_deletes p n : forall s w,
  p <> [] -> length s <= n -> deletes p w s (sub_from p w 0 s).
Proof.
  induction n as [|n IH]; intros s w Hp Hlen.
  - destruct s; [constructor | simpl in Hlen; lia].
  - destruct s as [|c s]; [constructor|].
    destruct (match_here p w (c :: s)) eqn:E.
    + pose proof E as E'. apply match_here_spec in E'.
      destruct E' as (post & Hs & Hb & Ha). destruct p as [|x p]; [now elim Hp|].
      rewrite Hs in E |- *. cbn [app] in E |- *.
      rewrite (sub_from_match x p w post E). rewrite <- (last_word_cons w x p).
      apply (@deletes_cut U (x :: p) w post); [exact Hb | exact Ha |].
      rewrite (last_word_cons w x p). apply IH; [exact Hp|].
      rewrite Hs in Hlen. simpl in Hlen. rewrite length_app in Hlen. lia.
    + cbn [sub_from]. rewrite E. constructor. apply IH; [exact Hp|].
      simpl in Hlen. lia.
Qed.

(** [re.sub] with the word-bounded pattern cuts occurrences of the phrase
    that stand between word boundaries and leaves the rest of the text
    where it was. *)
Lemma re_sub_wb_deletes p s : p <> [] -> deletes p false s (re_sub_wb p s).
Proof. intros Hp. now apply (@sub_from_deletes p (length s)). Qed.

Lemma sub_from_no_match p w s :
  search_from p w s = false -> sub_from p w 0 s = s.
Proof.
  revert w; induction s as [|c s IH]; intros w; [reflexivity|].
  cbn [search_from sub_from]. intros H. apply orb_false_iff in H.
  destruct H as [-> H]. now rewrite (IH _ H).
Qed.

(** Nothing is cut where the phrase does not occur between word
    boundaries. *)
Lemma re_sub_wb_only_at_boundaries p s : ~ occurs_wb p s -> re_sub_wb p s = s.
Proof.
  intros H. apply sub_from_no_match.
  destruct (search_from p false s) eqn:E; [|reflexivity].
  elim H. now apply re_search_wb_spec.
Qed.




(** *** What survives *)



Lemma helper_phrase_nonempty p : In p HELPER_PHRASES -> p <> [].
Proof.
  intros Hp ->. simpl in Hp. decompose [or] Hp; try discriminate; contradiction.
Qed.









End HelperPhrases.


Section ScanPasses.
Context {U : Unicode}.


















End ScanPasses.



(* ===================================================================== *)
(** ** More on normalization *)
(* ===================================================================== *)

Section MoreNormalization.
Context {U : Unicode}.

Lemma collapse_from_keeps b s c :
  In c s -> isspace c = false -> In c (collapse_from b s).
Proof.
  revert b; induction s as [|x s IH]; intros b; [intros []|].
  intros [->|Hin] Hc; simpl.
  - rewrite Hc. now left.
  - destruct (isspace x); [destruct b|]; simpl; auto.
Qed.

Lemma strip_keeps s c : In c s -> isspace c = false -> In c (strip s).
Proof.
  intros Hin Hc. unfold strip.
  destruct (lstrip_spec s) as (w & Hw & Hall & _).
  destruct (rstrip_spec (lstrip s)) as (w' & Hw' & Hall' & _).
  rewrite Hw in Hin. apply in_app_or in Hin. destruct Hin as [Hin|Hin].
  { rewrite Forall_forall in Hall. rewrite (Hall _ Hin) in Hc. discriminate. }
  rewrite Hw' in Hin. apply in_app_or in Hin. destruct Hin as [Hin|Hin]; [exact Hin|].
  rewrite Forall_forall in Hall'. rewrite (Hall' _ Hin) in Hc. discriminate.
Qed.

Lemma lstrip_all_space s : Forall (fun c => isspace c = true) s -> lstrip s = [].
Proof. induction 1 as [|c s Hc _ IH]; simpl; [reflexivity|]. now rewrite Hc. Qed.

Lemma strip_all_space s : Forall (fun c => isspace c = true) s -> strip s = [].
Proof. intros H. unfold strip. now rewrite (lstrip_all_space H). Qed.

Lemma normalize_text_nil_iff s :
  normalize_text s = [] <->
  s = [] \/ Forall (fun c => isspace c = true \/ is_word c = false)
                   (_strip_smart_quotes (str_lower s)).
Proof.
  destruct s as [|x s]; [simpl; tauto|]. unfold normalize_text.
  set (u := _strip_smart_quotes (str_lower (x :: s))). split.
  - intros E. right. apply Forall_forall. intros c Hc.
    destruct (isspace c) eqn:Hs; [now left|]. right.
    destruct (is_word c) eqn:Hw; [|reflexivity]. exfalso.
    assert (Hin : In c (strip (collapse_ws (punct_to_space u)))).
    { apply strip_keeps; [|exact Hs]. apply collapse_from_keeps; [|exact Hs].
      unfold punct_to_space. apply in_map_iff. exists c. now rewrite Hw. }
    rewrite E in Hin. destruct Hin.
  - intros [E|H]; [discriminate|]. apply strip_all_space.
    apply Forall_forall. intros c Hc. apply collapse_from_incl in Hc.
    destruct Hc as [->|[Hc Hs]]; [reflexivity|].
    unfold punct_to_space in Hc. apply in_map_iff in Hc. destruct Hc as (y & Ey & Hy).
    rewrite Forall_forall in H. destruct (is_word y || isspace y) eqn:Ew.
    + subst c. destruct (H y Hy) as [E|E]; [exact E|].
      rewrite E, Hs in Ew. discriminate.
    + now subst c.
Qed.

End MoreNormalization.

Section TitleNormalization.
Context {U : Unicode}.

Lemma collapsed_app_r b a s :
  collapsed b (a ++ s) = true -> exists b', collapsed b' s = true.
Proof.
  revert b; induction a as [|c a IH]; intros b; simpl; [eauto|].
  destruct (isspace c).
  - rewrite !andb_true_iff. intros [_ H]. eapply IH, H.
  - apply IH.
Qed.

Lemma collapsed_after_space b c s :
  isspace c = true -> collapsed b (c :: s) = true ->
  c = space /\ collapsed true s = true
  /\ match s with [] => True | x :: _ => isspace x = false end.
Proof.
  simpl. intros ->. rewrite !andb_true_iff, N.eqb_eq. intros [[-> _] H].
  repeat split; [exact H|]. destruct s as [|x s]; [exact I|].
  simpl in H. destruct (isspace x); [|reflexivity].
  rewrite !andb_true_iff in H. destruct H as [[_ H] _]. discriminate.
Qed.

Lemma no_double_space b pre c1 c2 post :
  isspace c1 = true -> isspace c2 = true ->
  collapsed b (pre ++ c1 :: c2 :: post) = false.
Proof.
  intros H1 H2. destruct (collapsed b (pre ++ c1 :: c2 :: post)) eqn:E; [|reflexivity].
  apply collapsed_app_r in E. destruct E as [b' E].
  apply collapsed_after_space in E; [|exact H1].
  destruct E as (_ & _ & H). congruence.
Qed.

Lemma rev_head_app (a r : pystr) :
  r <> [] -> hd_error (rev (a ++ r)) = hd_error (rev r).
Proof.
  intros Hr. rewrite rev_app_distr. destruct (rev r) as [|z l] eqn:E; [|reflexivity].
  apply (f_equal (@rev _)) in E. rewrite rev_involutive in E. now elim Hr.
Qed.

Lemma normalized_ends t :
  normalized t -> t <> [] ->
  word_opt (hd_error t) = true /\ word_opt (hd_error (rev t)) = true.
Proof.
  intros (Hch & _ & Hhd & Hlast) Hne. split.
  - destruct t as [|c t]; [now elim Hne|]. simpl.
    destruct (Hch c (or_introl eq_refl)) as [[->|[_ Hw]] _]; [discriminate Hhd | exact Hw].
  - destruct (rev t) as [|c l] eqn:E.
    + apply (f_equal (@rev _)) in E. rewrite rev_involutive in E. now elim Hne.
    + simpl. assert (Hin : In c t) by (apply in_rev; rewrite E; now left).
      destruct (Hch c Hin) as [[->|[_ Hw]] _]; [discriminate Hlast | exact Hw].
Qed.

Lemma after_article_normalized art t r :
  normalized t -> after_article art t = Some r ->
  t = art ++ space :: r /\ r <> [] /\ normalized r.
Proof.
  intros (Hch & Hcol & Hhd & Hlast) H. unfold after_article in H.
  destruct (starts_with art t) eqn:E; [|discriminate].
  apply starts_with_app in E. destruct E as [u ->]. rewrite skipn_length_app in H.
  destruct u as [|c rest]; [discriminate|].
  destruct (isspace c) eqn:Hc; [|discriminate]. injection H as <-.
  apply collapsed_app_r in Hcol. destruct Hcol as [b' Hcol].
  apply collapsed_after_space in Hcol; [|exact Hc].
  destruct Hcol as (-> & Hrest & Hhead).
  rewrite (lstrip_fixed _ Hhead).
  assert (Hne : rest <> []).
  { intros ->. rewrite rev_app_distr in Hlast. simpl in Hlast. discriminate. }
  split; [reflexivity|]. split; [exact Hne|]. split; [|split; [|split]].
  - intros c Hin. apply Hch. apply in_or_app. right. now right.
  - eapply collapsed_weaken, Hrest.
  - exact Hhead.
  - assert (E : hd_error (rev (art ++ space :: rest)) = hd_error (rev rest)).
    { change (art ++ space :: rest) with (art ++ [space] ++ rest).
      rewrite app_assoc. now apply rev_head_app. }
    destruct (rev rest) as [|z l]; [exact I|].
    destruct (rev (art ++ space :: rest)) as [|z' l']; [discriminate|].
    simpl in E. injection E as ->. exact Hlast.
Qed.

Lemma strip_leading_article_normalized t :
  normalized t ->
  normalized (strip_leading_article t)
  /\ (strip_leading_article t = t
      \/ exists art, In art [str "the"; str "a"; str "an"]
                     /\ t = art ++ space :: strip_leading_article t
                     /\ strip_leading_article t <> []).
Proof.
  intros Hn. unfold strip_leading_article.
  destruct (after_article (str "the") t) as [r|] eqn:E1.
  { apply after_article_normalized in E1; [|exact Hn].
    destruct E1 as (Ht & Hne & Hr).
    split; [exact Hr|]. right. exists (str "the"). simpl. auto. }
  destruct (after_article (str "a") t) as [r|] eqn:E2.
  { apply after_article_normalized in E2; [|exact Hn].
    destruct E2 as (Ht & Hne & Hr).
    split; [exact Hr|]. right. exists (str "a"). simpl. auto. }
  destruct (after_article (str "an") t) as [r|] eqn:E3.
  { apply after_article_normalized in E3; [|exact Hn].
    destruct E3 as (Ht & Hne & Hr).
    split; [exact Hr|]. right. exists (str "an"). simpl. auto. }
  auto.
Qed.

End TitleNormalization.

(** X1. What [normalize_text] returns is made of word characters and
    spaces, has no other whitespace and no two spaces in a row, and is
    empty or begins and ends with a word character. *)
Theorem normalize_text_shape :
  forall (U : Unicode) (s : pystr),
    let t := normalize_text s in
    (forall c, In c t -> c = space \/ (isspace c = false /\ is_word c = true))
    /\ (forall pre c1 c2 post,
          t = pre ++ c1 :: c2 :: post -> isspace c1 = false \/ isspace c2 = false)
    /\ (forall c rest, t = c :: rest -> isspace c = false /\ is_word c = true)
    /\ (forall c rest, t = rest ++ [c] -> isspace c = false /\ is_word c = true).
Proof.
  intros U s t. pose proof (normalize_text_normalized s) as Hn. fold t in Hn.
  pose proof Hn as (Hch & Hcol & Hhd & Hlast). split; [|split; [|split]].
  - intros c Hc. apply (Hch c Hc).
  - intros pre c1 c2 post E.
    destruct (isspace c1) eqn:H1; [|now left].
    destruct (isspace c2) eqn:H2; [|now right].
    rewrite E, (no_double_space false pre c1 c2 post H1 H2) in Hcol. discriminate.
  - intros c rest E. rewrite E in Hhd.
    assert (Hne : t <> []) by (rewrite E; discriminate).
    destruct (normalized_ends Hn Hne) as [Hw _]. rewrite E in Hw. auto.
  - intros c rest E. rewrite E, rev_app_distr in Hlast.
    assert (Hne : t <> []) by (rewrite E; now destruct rest).
    destruct (normalized_ends Hn Hne) as [_ Hw]. rewrite E, rev_app_distr in Hw. auto.
Qed.

(** X2. [normalize_text] returns the empty string exactly for the empty
    string and for a string whose lower-cased, quote-folded form has no
    character that is a word character and not whitespace. *)
Theorem normalize_text_empty_iff :
  forall (U : Unicode) (s : pystr),
    normalize_text s = [] <->
    s = [] \/ Forall (fun c => isspace c = true \/ is_word c = false)
                     (_strip_smart_quotes (str_lower s)).
Proof. intros U s. apply normalize_text_nil_iff. Qed.

(** X3. [normalize_title] returns the normalized text itself or the
    normalized text without a leading "the", "a" or "an" and the space after
    it; what is left after an article is not empty, so the normalized title
    is empty exactly when the normalized text is. *)
Theorem normalize_title_article :
  forall (U : Unicode) (s : pystr),
    (normalize_title s = normalize_text s
     \/ exists art, In art [str "the"; str "a"; str "an"]
                    /\ normalize_text s = art ++ space :: normalize_title s
                    /\ normalize_title s <> [])
    /\ (normalize_title s = [] <-> normalize_text s = [])
    /\ normalized (normalize_title s).
Proof.
  intros U s. unfold normalize_title.
  destruct (strip_leading_article_normalized (normalize_text_normalized s)) as [Hn Hc].
  split; [exact Hc|]. split; [|exact Hn]. split.
  - intros E. destruct Hc as [Hc|(art & _ & _ & Hne)]; [congruence | now elim Hne].
  - intros ->. reflexivity.
Qed.

(** X4. [_strip_smart_quotes] keeps the length, leaves none of the six
    typographic quotes and dashes, changes no other character, and applied
    twice gives what it gives applied once. *)
Theorem strip_smart_quotes_folds :
  forall (U : Unicode) (s : pystr),
    length (_strip_smart_quotes s) = length s
    /\ (forall c, In c (_strip_smart_quotes s) -> smart c = false)
    /\ (forall i c, nth_error s i = Some c -> smart c = false ->
                    nth_error (_strip_smart_quotes s) i = Some c)
    /\ _strip_smart_quotes (_strip_smart_quotes s) = _strip_smart_quotes s.
Proof.
  intros U s. rewrite _strip_smart_quotes_map. split; [apply length_map|].
  assert (Hno : forall c, In c (map fold_char s) -> smart c = false).
  { intros c Hc. apply in_map_iff in Hc. destruct Hc as (x & <- & _).
    apply fold_char_not_smart. }
  split; [exact Hno|]. split.
  - intros i c Hi Hc. rewrite nth_error_map, Hi. simpl. f_equal.
    destruct (fold_char_cases c) as [[E _]|[E _]]; [exact E | congruence].
  - apply _strip_smart_quotes_fixed. exact Hno.
Qed.

(* ===================================================================== *)
(** ** More on the resolver *)
(* ===================================================================== *)

Section MoreResolver.
Context {U : Unicode} {D : Difflib} {L : Loaded}.

Lemma find_book_nil_norm message :
  normalize_text message = [] -> find_book_in_message message = None.
Proof.
  intros E. unfold find_book_in_message. destruct message; [reflexivity|].
  now rewrite E.
Qed.

Lemma find_book_same_norm m1 m2 :
  normalize_text m1 = normalize_text m2 ->
  find_book_in_message m1 = find_book_in_message m2.
Proof.
  intros E. destruct (normalize_text m2) as [|x t] eqn:E2.
  - rewrite (find_book_nil_norm _ E), (find_book_nil_norm _ E2). reflexivity.
  - unfold find_book_in_message.
    destruct m1 as [|c1 m1]; [discriminate|]. destruct m2 as [|c2 m2]; [discriminate|].
    now rewrite E, E2.
Qed.

(** A normalized string that is not empty occurs in itself between word
    boundaries. *)
Lemma normalized_occurs_self t : normalized t -> t <> [] -> occurs_wb t t.
Proof.
  intros Hn Hne. destruct (normalized_ends Hn Hne) as [Hfirst Hlast].
  exists [], []. rewrite app_nil_r. cbn [app]. repeat split.
  - unfold boundary. cbn [last_word]. now rewrite Hfirst.
  - unfold boundary, last_word. destruct t; [now elim Hne|]. now rewrite Hlast.
Qed.

Lemma last_word_app w a r :
  r <> [] -> last_word w (a ++ r) = word_opt (hd_error (rev r)).
Proof.
  intros Hr. unfold last_word. destruct (a ++ r) eqn:E.
  - apply app_eq_nil in E. tauto.
  - rewrite <- E. now rewrite rev_head_app.
Qed.

(** The normalized title of a string occurs between word boundaries in its
    normalized text, when the space is no word character. *)
Lemma title_occurs_in_text s :
  is_word space = false ->
  normalize_title s <> [] ->
  occurs_wb (normalize_title s) (normalize_text s).
Proof.
  intros Hsp Hne. unfold normalize_title in *.
  pose proof (normalize_text_normalized s) as Hn.
  destruct (strip_leading_article_normalized Hn) as [Hr [E|(art & _ & E & _)]].
  - rewrite E in *. now apply normalized_occurs_self.
  - destruct (normalized_ends Hr Hne) as [Hfirst Hlast].
    exists (art ++ [space]), []. rewrite app_nil_r. repeat split.
    + rewrite <- app_assoc. exact E.
    + unfold boundary. rewrite last_word_app by discriminate. simpl rev.
      cbn [hd_error word_opt]. now rewrite Hsp, Hfirst.
    + unfold boundary. rewrite last_word_app by exact Hne. now rewrite Hlast.
Qed.

Lemma containment_covers msg nt b :
  In (nt, b) BOOK_TITLE_INDEX -> title_in nt msg ->
  exists b' i nt',
    containment_tier msg = Some b' /\ longest_first msg i nt' b'
    /\ length nt <= length nt'.
Proof.
  intros Hin Hm. destruct (containment_tier msg) as [b'|] eqn:E.
  - pose proof E as E'. apply containment_tier_some in E'.
    destruct E' as (i & nt' & Hlf). exists b', i, nt'.
    split; [reflexivity|]. split; [exact Hlf|].
    destruct Hlf as (_ & _ & Hmax).
    apply In_nth_error in Hin. destruct Hin as [j Hj].
    now destruct (Hmax j nt b Hj Hm).
  - exfalso. rewrite containment_tier_none in E. exact (E nt b Hin Hm).
Qed.

Lemma equality_implies_containment msg b :
  normalized msg -> msg <> [] ->
  equality_tier msg = Some b -> containment_tier msg <> None.
Proof.
  intros Hn Hne He Hc. unfold equality_tier in He.
  destruct (find (fun '(nt, _) => str_eqb msg nt) BOOK_TITLE_INDEX) as [[nt b']|] eqn:E;
    [|discriminate].
  apply find_some in E. destruct E as [Hin Heq]. apply str_eqb_eq in Heq. subst nt.
  rewrite containment_tier_none in Hc. apply (Hc msg b' Hin).
  split; [exact Hne | now apply normalized_occurs_self].
Qed.

Lemma fuzzy_lookup q :
  match get_close_matches q titles_norm with
  | x :: _ =>
      exists idx b,
        index x titles_norm = Some idx
        /\ nth_error BOOK_TITLE_INDEX idx = Some (x, b)
        /\ fuzzy_tier q = Some b
  | [] => fuzzy_tier q = None
  end.
Proof.
  unfold fuzzy_tier. pose proof (get_close_matches_spec q titles_norm) as H.
  destruct (get_close_matches q titles_norm) as [|x rest]; [reflexivity|].
  destruct H as (_ & Hin & _).
  destruct (index_spec _ _ Hin) as (i & Ei & Hi & _). rewrite Ei.
  unfold titles_norm in Hi. rewrite nth_error_map in Hi.
  destruct (nth_error BOOK_TITLE_INDEX i) as [[nt b]|] eqn:E; [|discriminate].
  simpl in Hi. injection Hi as ->. exists i, b. auto.
Qed.

End MoreResolver.

(** X5. The resolver looks at a message only through its normalized text:
    two messages with the same normalized text resolve alike, and a message
    resolves like its own normalized text. *)
Theorem resolver_sees_normalized_text :
  forall (U : Unicode) (D : Difflib) (L : Loaded),
    lower_stable ->
    forall m1 m2,
      (normalize_text m1 = normalize_text m2 ->
       find_book_in_message m1 = find_book_in_message m2)
      /\ find_book_in_message (normalize_text m1) = find_book_in_message m1.
Proof.
  intros U D L Hlow m1 m2. split; [apply find_book_same_norm|].
  apply find_book_same_norm. now apply normalized_fixed;
    [apply normalize_text_normalized
    | apply (Hlow m1); intros c Hc; apply (normalize_text_char m1 c Hc)].
Qed.

Lemma resolver_sees_normalized_text_witness :
  @find_book_in_message ascii_unicode gestalt shelf (str "  DUNE -- what's the deal?!")
  = @find_book_in_message ascii_unicode gestalt shelf (str "dune what s the deal")
  /\ @find_book_in_message ascii_unicode gestalt shelf (str "dune what s the deal")
     = Some Dune.
Proof.
  split; [|vm_compute; reflexivity].
  apply (proj1 (@resolver_sees_normalized_text ascii_unicode gestalt shelf
                  ascii_lower_stable
                  (str "  DUNE -- what's the deal?!") (str "dune what s the deal"))).
  vm_compute. reflexivity.
Defined.

(** X6. A message without a word character (only punctuation and
    whitespace once lower-cased and quote-folded) resolves to no book,
    whatever the catalog and the scores are. *)
Theorem no_word_no_book :
  forall (U : Unicode) (D : Difflib) (L : Loaded) (message : pystr),
    Forall (fun c => isspace c = true \/ is_word c = false)
           (_strip_smart_quotes (str_lower message)) ->
    find_book_in_message message = None.
Proof.
  intros U D L message H. apply find_book_nil_norm.
  apply normalize_text_nil_iff. now right.
Qed.

Lemma no_word_no_book_witness :
  @find_book_in_message ascii_unicode gestalt shelf (str " ?! ... -- ") = None.
Proof.
  apply (@no_word_no_book ascii_unicode gestalt shelf (str " ?! ... -- ")).
  cbv [ascii_unicode str_lower]. simpl.
  repeat (constructor; [first [left; reflexivity | right; reflexivity]|]).
  constructor.
Defined.

(** X7. The equality tier never decides: when the normalized message
    equals a normalized title, the containment tier has already matched,
    so the resolver returns the same with the equality tier removed. *)
Theorem equality_tier_redundant :
  forall (U : Unicode) (D : Difflib) (L : Loaded) (message : pystr),
    (forall b, equality_tier (normalize_text message) = Some b ->
               normalize_text message <> [] ->
               containment_tier (normalize_text message) <> None)
    /\ find_book_in_message message = find_book_without_equality_tier message.
Proof.
  intros U D L message.
  assert (H : forall b, equality_tier (normalize_text message) = Some b ->
                        normalize_text message <> [] ->
                        containment_tier (normalize_text message) <> None).
  { intros b He Hne. eapply equality_implies_containment; eauto.
    apply normalize_text_normalized. }
  split; [exact H|].
  unfold find_book_in_message, find_book_without_equality_tier.
  destruct message as [|c m]; [reflexivity|].
  destruct (normalize_text (c :: m)) as [|x t] eqn:E; [reflexivity|].
  destruct (containment_tier (x :: t)) as [b1|] eqn:E1; [reflexivity|].
  destruct (equality_tier (x :: t)) as [b2|] eqn:E2; [|reflexivity].
  exfalso. apply (H b2 eq_refl); [discriminate | reflexivity].
Qed.

(** X8. When the normalized title of an index pair occurs in the
    normalized message between word boundaries, the resolver returns a
    book, and one whose normalized title is at least as long. *)
Theorem matching_title_resolves :
  forall (U : Unicode) (D : Difflib) (L : Loaded) (message nt : pystr) (b : book),
    In (nt, b) BOOK_TITLE_INDEX ->
    title_in nt (normalize_text message) ->
    exists b',
      find_book_in_message message = Some b'
      /\ In b' books_data
      /\ length nt <= length (normalize_title (title b'))
      /\ title_in (normalize_title (title b')) (normalize_text message).
Proof.
  intros U D L message nt b Hin Hm.
  destruct (@containment_covers _ _ _ _ _ Hin Hm) as (b' & i & nt' & Hc & Hlf & Hlen).
  exists b'. destruct Hlf as (Hi & Hm' & _).
  apply nth_error_In, index_pair in Hi. destruct Hi as [-> Hb'].
  split; [now apply find_book_containment|]. auto.
Qed.

Lemma matching_title_resolves_witness :
  exists b',
    @find_book_in_message ascii_unicode gestalt shelf (str "Is it any good?") = Some b'
    /\ In b' (@books_data shelf)
    /\ length (str "it") <= length (@normalize_title ascii_unicode (title b'))
    /\ @title_in ascii_unicode (@normalize_title ascii_unicode (title b'))
         (@normalize_text ascii_unicode (str "Is it any good?")).
Proof.
  apply (@matching_title_resolves ascii_unicode gestalt shelf
           (str "Is it any good?") (str "it") It).
  - vm_compute. tauto.
  - split; [discriminate|]. apply re_search_wb_spec. vm_compute. reflexivity.
Defined.

(** X9. Every catalog entry whose normalized title is not empty is
    reachable by its own title: the resolver applied to the title returns a
    book whose normalized title is at least as long.  (The space must not be
    a word character, as in Unicode.) *)
Theorem own_title_resolves :
  forall (U : Unicode) (D : Difflib) (L : Loaded),
    is_word space = false ->
    forall b,
      In b books_data ->
      normalize_title (title b) <> [] ->
      exists b',
        find_book_in_message (title b) = Some b'
        /\ In b' books_data
        /\ length (normalize_title (title b)) <= length (normalize_title (title b')).
Proof.
  intros U D L Hsp b Hb Hne.
  assert (Hin : In (normalize_title (title b), b) BOOK_TITLE_INDEX) by now apply index_pair.
  assert (Hm : title_in (normalize_title (title b)) (normalize_text (title b))).
  { split; [exact Hne | now apply title_occurs_in_text]. }
  destruct (@containment_covers _ _ _ _ _ Hin Hm) as (b' & i & nt' & Hc & Hlf & Hlen).
  exists b'. destruct Hlf as (Hi & _ & _).
  apply nth_error_In, index_pair in Hi. destruct Hi as [-> Hb'].
  split; [now apply find_book_containment|]. auto.
Qed.

Lemma own_title_resolves_witness :
  exists b',
    @find_book_in_message ascii_unicode gestalt shelf (title The_Hobbit) = Some b'
    /\ In b' (@books_data shelf)
    /\ length (@normalize_title ascii_unicode (title The_Hobbit))
       <= length (@normalize_title ascii_unicode (title b')).
Proof.
  apply (@own_title_resolves ascii_unicode gestalt shelf eq_refl The_Hobbit).
  - vm_compute. tauto.
  - vm_compute. discriminate.
Defined.

(** X10. The look-up after a fuzzy match cannot fail: whenever
    [get_close_matches] returns a title, [index] finds it among the
    normalized titles at a position inside the index, and the fuzzy tier
    returns the book at that position; the tier returns nothing only when
    [get_close_matches] returns nothing. *)
Theorem fuzzy_lookup_total :
  forall (U : Unicode) (D : Difflib) (L : Loaded) (q : pystr),
    match get_close_matches q titles_norm with
    | x :: _ =>
        exists idx b,
          index x titles_norm = Some idx
          /\ nth_error BOOK_TITLE_INDEX idx = Some (x, b)
          /\ fuzzy_tier q = Some b
    | [] => fuzzy_tier q = None
    end.
Proof. intros U D L q. apply fuzzy_lookup. Qed.

(* ===================================================================== *)
(** ** More on the replies *)
(* ===================================================================== *)

Section MoreReplies.
Context {U : Unicode} {D : Difflib} {L : Loaded}.

Lemma random_choice_nonempty (A : Type) rnd (seq : list A) :
  seq <> [] -> exists x, random_choice rnd seq = Ret x /\ In x seq.
Proof.
  intros Hne. unfold random_choice. destruct seq as [|y seq]; [now elim Hne|].
  destruct (nth_error (y :: seq) (rnd mod length (y :: seq))) as [x|] eqn:E.
  - exists x. split; [reflexivity|]. eapply nth_error_In, E.
  - apply nth_error_None in E.
    pose proof (Nat.mod_upper_bound rnd (length (y :: seq))) as Hb.
    simpl in *. lia.
Qed.

Lemma random_choice_raise (A : Type) rnd (seq : list A) e :
  random_choice rnd seq = Raise e -> seq = [] /\ e = IndexError.
Proof.
  destruct seq as [|y seq].
  - simpl. intros H. injection H as <-. auto.
  - intros H. destruct (@random_choice_nonempty A rnd (y :: seq)) as (x & E & _);
      [discriminate|]. congruence.
Qed.

(** Only the branch of [random_book] can raise. *)
Lemma get_bot_response_raise last_book rnd user_input e m :
  get_bot_response last_book rnd user_input = (Raise e, m) ->
  predict_intent user_input = str "random_book"
  /\ ((e = IndexError /\ books_data = [] /\ m = last_book)
      \/ (e = KeyError
          /\ exists b, In b books_data /\ summary b = None /\ m = Some b)).
Proof.
  unfold get_bot_response.
  destruct (str_eqb (predict_intent user_input) (str "greeting")).
  { destruct greeting_responses as [|r rs]; [discriminate|].
    destruct (random_choice rnd (r :: rs)) as [x|e'] eqn:E; [discriminate|].
    apply random_choice_raise in E. destruct E; discriminate. }
  destruct (str_eqb (predict_intent user_input) (str "random_book")) eqn:Er.
  { apply str_eqb_eq in Er. split; [exact Er|].
    destruct (random_choice rnd books_data) as [b|e'] eqn:E.
    - apply random_choice_In in E. destruct (summary b) eqn:Es; [discriminate|].
      injection H as <- <-. right. split; [reflexivity|]. eauto.
    - apply random_choice_raise in E. destruct E as [-> ->].
      injection H as <- <-. left. auto. }
  destruct (existsb (str_eqb (predict_intent user_input)) book_intents); [|discriminate].
  destruct (extract_book_from_input user_input); [discriminate|].
  destruct last_book; discriminate.
Qed.

Lemma get_bot_response_memory_change last_book rnd user_input :
  snd (get_bot_response last_book rnd user_input) <> last_book ->
  predict_intent user_input = str "random_book"
  \/ (In (predict_intent user_input) book_intents
      /\ extract_book_from_input user_input
         = snd (get_bot_response last_book rnd user_input)).
Proof.
  unfold get_bot_response.
  destruct (str_eqb (predict_intent user_input) (str "greeting")).
  { destruct greeting_responses as [|r rs]; [now intros []|].
    destruct (random_choice rnd (r :: rs)); now intros []. }
  destruct (str_eqb (predict_intent user_input) (str "random_book")) eqn:Er.
  { apply str_eqb_eq in Er. now left. }
  destruct (existsb (str_eqb (predict_intent user_input)) book_intents) eqn:Eb;
    [|now intros []].
  apply existsb_str_eqb in Eb.
  destruct (extract_book_from_input user_input) as [b|]; [auto|].
  destruct last_book; now intros [].
Qed.

Lemma get_bot_response_keeps_some last_book rnd user_input :
  last_book <> None -> snd (get_bot_response last_book rnd user_input) <> None.
Proof.
  intros Hs. unfold get_bot_response.
  destruct (str_eqb (predict_intent user_input) (str "greeting")).
  { destruct greeting_responses as [|r rs]; [exact Hs|].
    now destruct (random_choice rnd (r :: rs)). }
  destruct (str_eqb (predict_intent user_input) (str "random_book")).
  { destruct (random_choice rnd books_data) as [b|e]; [|exact Hs].
    now destruct (summary b). }
  destruct (existsb (str_eqb (predict_intent user_input)) book_intents); [|exact Hs].
  destruct (extract_book_from_input user_input); [discriminate|].
  destruct last_book; [discriminate | now elim Hs].
Qed.

Lemma book_reply_head intent b :
  In intent book_intents ->
  exists c rest, book_reply intent b = c :: rest /\ (c <> 83 /\ c <> 80)%N.
Proof.
  intros H. simpl in H. unfold book_reply.
  decompose [or] H; subst; try contradiction; cbn [str_eqb];
    eexists; eexists; (split; [reflexivity | split; discriminate]).
Qed.

Lemma book_reply_other intent b :
  ~ In intent book_intents -> book_reply intent b = sorry_reply b.
Proof.
  intros H. unfold book_reply.
  repeat match goal with
         | |- context [str_eqb intent ?v] =>
             let E := fresh "E" in
             destruct (str_eqb intent v) eqn:E;
             [apply str_eqb_eq in E; elim H; rewrite E; simpl; tauto|]
         end.
  reflexivity.
Qed.

End MoreReplies.

(** X11. [get_bot_response] raises only for the intent [random_book]:
    [IndexError] when the catalog is empty, with the memory untouched, or
    [KeyError] when the book drawn has no summary, and then the memory
    already holds that book.  A greeting or a book intent never raises,
    whichever fields a book lacks. *)
Theorem only_random_book_raises :
  forall (U : Unicode) (D : Difflib) (L : Loaded)
         (last_book : option book) (rnd : nat) (user_input : pystr)
         (e : exn) (m : option book),
    get_bot_response last_book rnd user_input = (Raise e, m) ->
    predict_intent user_input = str "random_book"
    /\ ((e = IndexError /\ books_data = [] /\ m = last_book)
        \/ (e = KeyError
            /\ exists b, In b books_data /\ summary b = None /\ m = Some b)).
Proof. intros U D L last_book rnd user_input e m. apply get_bot_response_raise. Qed.

Lemma only_random_book_raises_witness :
  @get_bot_response ascii_unicode gestalt shelf (Some Dune) 3 (str "surprise me")
  = (Raise KeyError, Some The_Hobbit)
  /\ first_word_intent (str "surprise me") = str "random_book".
Proof.
  assert (E : @get_bot_response ascii_unicode gestalt shelf (Some Dune) 3 (str "surprise me")
              = (Raise KeyError, Some The_Hobbit)) by (vm_compute; reflexivity).
  split; [exact E|].
  exact (proj1 (@only_random_book_raises ascii_unicode gestalt shelf (Some Dune) 3
                  (str "surprise me") KeyError (Some The_Hobbit) E)).
Defined.

(** X12. The memory is never cleared: once it holds a book, it holds one
    after every call; and a call changes it only for [random_book] or for a
    book intent whose message resolves, and then to the resolved book. *)
Theorem memory_changes_only_by_resolution :
  forall (U : Unicode) (D : Difflib) (L : Loaded)
         (last_book : option book) (rnd : nat) (user_input : pystr),
    (last_book <> None -> snd (get_bot_response last_book rnd user_input) <> None)
    /\ (snd (get_bot_response last_book rnd user_input) <> last_book ->
        predict_intent user_input = str "random_book"
        \/ (In (predict_intent user_input) book_intents
            /\ extract_book_from_input user_input
               = snd (get_bot_response last_book rnd user_input)))
    /\ (forall requests, last_book <> None -> run last_book requests <> None).
Proof.
  intros U D L last_book rnd user_input. split; [|split].
  - apply get_bot_response_keeps_some.
  - apply get_bot_response_memory_change.
  - intros requests. revert last_book.
    induction requests as [|[r ui] rest IH]; intros last_book Hs; [exact Hs|].
    simpl. apply IH. now apply get_bot_response_keeps_some.
Qed.

(** X13. For the intent [greeting] the reply is one of the configured
    greeting replies, or the built-in greeting when none is configured, and
    the memory stays as it was. *)
Theorem greeting_reply :
  forall (U : Unicode) (D : Difflib) (L : Loaded)
         (last_book : option book) (rnd : nat) (user_input : pystr),
    predict_intent user_input = str "greeting" ->
    snd (get_bot_response last_book rnd user_input) = last_book
    /\ exists r,
         fst (get_bot_response last_book rnd user_input) = Ret (Some r)
         /\ match greeting_responses with
            | [] => r = str "Hello! How can I help you today?"
            | _ => In r greeting_responses
            end.
Proof.
  intros U D L last_book rnd user_input H. unfold get_bot_response.
  rewrite H. change (str_eqb (str "greeting") (str "greeting")) with true. cbv iota.
  destruct greeting_responses as [|g gs] eqn:Eg.
  - split; [reflexivity|].
    exists (str "Hello! How can I help you today?"). split; reflexivity.
  - destruct (@random_choice_nonempty pystr rnd (g :: gs)) as (x & -> & Hx);
      [discriminate|].
    split; [reflexivity|]. exists x. split; [reflexivity | exact Hx].
Qed.

Lemma greeting_reply_witness :
  @get_bot_response ascii_unicode gestalt shelf (Some Dune) 5 (str "Hi!")
  = (Ret (Some (str "Hi there!")), Some Dune)
  /\ snd (@get_bot_response ascii_unicode gestalt shelf (Some Dune) 5 (str "Hi!"))
     = Some Dune.
Proof.
  split; [vm_compute; reflexivity|].
  apply (@greeting_reply ascii_unicode gestalt shelf (Some Dune) 5 (str "Hi!")).
  vm_compute. reflexivity.
Defined.

(** X14. The last [return] of [get_bot_response] (line 178) is never
    reached: [book_reply] gives its text exactly for a label that is not one
    of the five book intents, and for those five, the only ones that get
    there, the reply of [get_bot_response] is not that text for any book. *)
Theorem sorry_reply_unreachable :
  forall (U : Unicode) (D : Difflib) (L : Loaded),
    (forall intent b, ~ In intent book_intents -> book_reply intent b = sorry_reply b)
    /\ (forall intent b b', In intent book_intents -> book_reply intent b <> sorry_reply b')
    /\ (forall last_book rnd user_input b',
          In (predict_intent user_input) book_intents ->
          fst (get_bot_response last_book rnd user_input) <> Ret (Some (sorry_reply b'))).
Proof.
  intros U D L.
  assert (Hne : forall intent b b', In intent book_intents ->
                                    book_reply intent b <> sorry_reply b').
  { intros intent b b' H E. destruct (book_reply_head b H) as (c & rest & Ec & Hc & _).
    rewrite Ec in E. unfold sorry_reply in E. simpl in E. injection E as E _.
    now apply Hc. }
  split; [intros intent b; apply book_reply_other|]. split; [exact Hne|].
  intros last_book rnd user_input b' H.
  rewrite (book_intent_response last_book rnd user_input H).
  destruct (extract_book_from_input user_input) as [b|]; simpl.
  - intros E. injection E as E. now apply (Hne _ b b' H).
  - destruct last_book as [b|]; simpl; intros E; injection E as E.
    + now apply (Hne _ b b' H).
    + unfold sorry_reply in E. simpl in E. discriminate.
Qed.

(* ===================================================================== *)
(** ** The local loop and more on the helper phrases *)
(* ===================================================================== *)

Section MoreRepl.
Context {U : Unicode} {D : Difflib} {L : Loaded}.

Lemma run_app last_book pre post :
  run last_book (pre ++ post) = run (run last_book pre) post.
Proof.
  revert last_book; induction pre as [|[r ui] pre IH]; intros last_book; [reflexivity|].
  simpl. apply IH.
Qed.

Lemma transcript_cons last_book rnd ui pre :
  transcript last_book ((rnd, ui) :: pre)
  = exchange last_book (rnd, ui)
    ++ transcript (snd (get_bot_response last_book rnd ui)) pre.
Proof.
  unfold transcript. cbn [length]. rewrite <- cons_seq, <- seq_shift.
  cbn [map concat firstn run nth]. f_equal. rewrite map_map. reflexivity.
Qed.

Lemma answered_cons last_book rnd ui pre response :
  fst (get_bot_response last_book rnd ui) = Ret response ->
  answered (snd (get_bot_response last_book rnd ui)) pre ->
  answered last_book ((rnd, ui) :: pre).
Proof.
  intros Hr Ha [|i] rnd' ui' Hi.
  - simpl in Hi. injection Hi as <- <-. simpl. eauto.
  - simpl in Hi. apply (Ha i rnd' ui' Hi).
Qed.

Lemma answered_nil last_book : answered last_book [].
Proof. intros [|i] rnd ui Hi; discriminate. Qed.

Lemma debug_lines_raise last_book rnd ui e m :
  get_bot_response last_book rnd ui = (Raise e, m) -> debug_lines last_book ui = [].
Proof.
  intros H. apply get_bot_response_raise in H. destruct H as [E _].
  unfold debug_lines. rewrite E. reflexivity.
Qed.

Lemma repl_spec last_book lines :
  match repl last_book lines with
  | (out, Quit, m) =>
      exists pre rnd ui post,
        lines = pre ++ (rnd, ui) :: post
        /\ str_lower ui = str "quit"
        /\ Forall (fun l => str_lower (snd l) <> str "quit") pre
        /\ answered last_book pre
        /\ m = run last_book pre
        /\ out = transcript last_book pre ++ [Prompt]
  | (out, EOFError, m) =>
      Forall (fun l => str_lower (snd l) <> str "quit") lines
      /\ answered last_book lines
      /\ m = run last_book lines
      /\ out = transcript last_book lines ++ [Prompt]
  | (out, Uncaught e, m) =>
      exists pre rnd ui post,
        lines = pre ++ (rnd, ui) :: post
        /\ Forall (fun l => str_lower (snd l) <> str "quit") pre
        /\ str_lower ui <> str "quit"
        /\ answered last_book pre
        /\ get_bot_response (run last_book pre) rnd ui = (Raise e, m)
        /\ out = transcript last_book pre ++ [Prompt]
  end.
Proof.
  revert last_book; induction lines as [|[rnd ui] rest IH]; intros last_book.
  - simpl. split; [constructor|]. split; [apply answered_nil|]. split; reflexivity.
  - cbn [repl]. destruct (str_eqb (str_lower ui) (str "quit")) eqn:Eq.
    + apply str_eqb_eq in Eq. exists [], rnd, ui, rest.
      split; [reflexivity|]. split; [exact Eq|]. split; [constructor|].
      split; [apply answered_nil|]. split; reflexivity.
    + assert (Hq : str_lower ui <> str "quit").
      { intros E. rewrite E in Eq. discriminate. }
      destruct (get_bot_response last_book rnd ui) as [[r|e] m] eqn:Eg.
      * specialize (IH m).
        assert (Em : m = snd (get_bot_response last_book rnd ui)) by now rewrite Eg.
        assert (Er : fst (get_bot_response last_book rnd ui) = Ret r) by now rewrite Eg.
        assert (Ex : forall out,
                   Prompt :: debug_lines last_book ui ++ bot_line r :: out
                   = exchange last_book (rnd, ui) ++ out).
        { intros out. unfold exchange. cbn [fst snd]. rewrite Er.
          cbn [app]. now rewrite <- app_assoc. }
        destruct (repl m rest) as [[out [| |e]] m'].
        -- destruct IH as (pre & rnd' & ui' & post & -> & Hui & Hpre & Ha & -> & ->).
           exists ((rnd, ui) :: pre), rnd', ui', post.
           split; [reflexivity|]. split; [exact Hui|].
           split; [constructor; [exact Hq | exact Hpre]|].
           split; [eapply answered_cons; [exact Er | now rewrite <- Em]|].
           split; [cbn [run]; now rewrite Em|].
           rewrite Ex, transcript_cons, <- Em. now rewrite app_assoc.
        -- destruct IH as (Hall & Ha & -> & ->).
           split; [constructor; [exact Hq | exact Hall]|].
           split; [eapply answered_cons; [exact Er | now rewrite <- Em]|].
           split; [cbn [run]; now rewrite Em|].
           rewrite Ex, transcript_cons, <- Em. now rewrite app_assoc.
        -- destruct IH as (pre & rnd' & ui' & post & -> & Hpre & Hui & Ha & Hg & ->).
           exists ((rnd, ui) :: pre), rnd', ui', post.
           split; [reflexivity|].
           split; [constructor; [exact Hq | exact Hpre]|]. split; [exact Hui|].
           split; [eapply answered_cons; [exact Er | now rewrite <- Em]|].
           split; [cbn [run]; now rewrite <- Em|].
           rewrite Ex, transcript_cons, <- Em. now rewrite app_assoc.
      * exists [], rnd, ui, rest.
        split; [reflexivity|]. split; [constructor|]. split; [exact Hq|].
        split; [apply answered_nil|]. split; [exact Eg|].
        now rewrite (debug_lines_raise _ _ _ Eg).
Qed.

(** *** Helper phrases: what passes unchanged, and lengths *)

Lemma remove_phrases_fixed phrases s :
  (forall p, In p phrases -> ~ occurs_wb p s) ->
  fold_left (fun m p => re_sub_wb p m) phrases s = s.
Proof.
  induction phrases as [|p ps IH]; intros H; [reflexivity|].
  simpl. rewrite re_sub_wb_only_at_boundaries by (apply H; now left).
  apply IH. intros q Hq. apply H. now right.
Qed.

Lemma deletes_length p w s r : deletes p w s r -> length r <= length s.
Proof.
  induction 1 as [w|w c s r H IH|w s r _ _ H IH]; simpl.
  - lia.
  - lia.
  - rewrite length_app. lia.
Qed.

Lemma remove_phrases_length phrases s :
  (forall p, In p phrases -> p <> []) ->
  length (fold_left (fun m p => re_sub_wb p m) phrases s) <= length s.
Proof.
  revert s; induction phrases as [|p ps IH]; intros s H; [simpl; lia|].
  simpl. etransitivity; [apply IH; intros q Hq; apply H; now right|].
  eapply deletes_length, re_sub_wb_deletes, H. now left.
Qed.

Lemma collapse_from_length b s : length (collapse_from b s) <= length s.
Proof.
  revert b; induction s as [|c s IH]; intros b; simpl; [lia|].
  destruct (isspace c); [destruct b|]; simpl;
    match goal with |- context [collapse_from ?b' s] => specialize (IH b') end; lia.
Qed.

Lemma strip_length s : length (strip s) <= length s.
Proof.
  unfold strip. destruct (lstrip_spec s) as (w & Hw & _).
  destruct (rstrip_spec (lstrip s)) as (w' & Hw' & _).
  apply (f_equal (@length _)) in Hw, Hw'. rewrite length_app in Hw, Hw'. lia.
Qed.

End MoreRepl.

(** X16. The local loop, on a standard output that accepts every string:
    after the banner it writes, for each line in order, the prompt, the
    matched book that [get_bot_response] prints, and the reply that
    [get_bot_response] gives with the memory that the lines before left.
    It stops at the first line that is "quit" in any letter case, after
    its prompt, without answering it or reading further; an exception of
    [get_bot_response] ends it, uncaught, at the line that raised; with
    neither, it ends with [EOFError] when the input is used up.  The
    memory at the end is the one that the answered lines left. *)
Theorem repl_runs_until_quit :
  forall (U : Unicode) (D : Difflib) (L : Loaded) (lines : list (nat * pystr)),
    match main lines with
    | (out, Quit, m) =>
        exists pre rnd ui post,
          lines = pre ++ (rnd, ui) :: post
          /\ str_lower ui = str "quit"
          /\ Forall (fun l => str_lower (snd l) <> str "quit") pre
          /\ answered None pre
          /\ m = run None pre
          /\ out = Line (str "Chatbot is ready! Type 'quit' to exit.")
                   :: transcript None pre ++ [Prompt]
    | (out, EOFError, m) =>
        Forall (fun l => str_lower (snd l) <> str "quit") lines
        /\ answered None lines
        /\ m = run None lines
        /\ out = Line (str "Chatbot is ready! Type 'quit' to exit.")
                 :: transcript None lines ++ [Prompt]
    | (out, Uncaught e, m) =>
        exists pre rnd ui post,
          lines = pre ++ (rnd, ui) :: post
          /\ Forall (fun l => str_lower (snd l) <> str "quit") pre
          /\ str_lower ui <> str "quit"
          /\ answered None pre
          /\ get_bot_response (run None pre) rnd ui = (Raise e, m)
          /\ out = Line (str "Chatbot is ready! Type 'quit' to exit.")
                   :: transcript None pre ++ [Prompt]
    end.
Proof.
  intros U D L lines. unfold main. pose proof (repl_spec None lines) as H.
  destruct (repl None lines) as [[out [| |e]] m].
  - destruct H as (pre & rnd & ui & post & H1 & H2 & H3 & H4 & H5 & ->).
    exists pre, rnd, ui, post. repeat (split; [assumption|]). reflexivity.
  - destruct H as (H1 & H2 & H3 & ->). repeat (split; [assumption|]). reflexivity.
  - destruct H as (pre & rnd & ui & post & H1 & H2 & H3 & H4 & H5 & ->).
    exists pre, rnd, ui, post. repeat (split; [assumption|]). reflexivity.
Qed.

Lemma repl_runs_until_quit_example :
  @main ascii_unicode gestalt shelf
    [(0, str "who wrote the hobbit"); (0, str "how many pages?"); (1, str "Hi");
     (0, str "QUIT"); (0, str "who wrote dune")]
  = ([Line (str "Chatbot is ready! Type 'quit' to exit.");
      Prompt; Debug The_Hobbit;
      Line (str "Bot: " ++ [9997; 65039]%N
              ++ str " Author of The Hobbit is J. R. R. Tolkien.");
      Prompt; Debug The_Hobbit;
      Line (str "Bot: " ++ [128196%N] ++ str " The Hobbit has 310.");
      Prompt; Line (str "Bot: Hi there!");
      Prompt],
     Quit, Some The_Hobbit).
Proof. vm_compute. reflexivity. Qed.

(** X17. A message in which no helper phrase occurs between word
    boundaries passes through [clean_query_from_helpers] with nothing but
    its case, its typographic quotes and its whitespace changed. *)
Theorem clean_query_without_phrases :
  forall (U : Unicode) (message : pystr),
    (forall p, In p HELPER_PHRASES ->
               ~ occurs_wb p (_strip_smart_quotes (str_lower message))) ->
    clean_query_from_helpers message
    = strip (collapse_ws (_strip_smart_quotes (str_lower message))).
Proof.
  intros U message H. unfold clean_query_from_helpers.
  now rewrite remove_phrases_fixed.
Qed.

Lemma helper_phrases_absent_in_dune :
  forall p, In p HELPER_PHRASES ->
            ~ @occurs_wb ascii_unicode p
                (_strip_smart_quotes (@str_lower ascii_unicode (str "  DUNE,  Part Two "))).
Proof.
  intros p Hp Hocc. apply re_search_wb_spec in Hocc. revert Hocc.
  simpl in Hp. decompose [or] Hp; subst; try contradiction; vm_compute; discriminate.
Qed.

Lemma clean_query_without_phrases_witness :
  @clean_query_from_helpers ascii_unicode (str "  DUNE,  Part Two ")
  = str "dune, part two".
Proof.
  rewrite (@clean_query_without_phrases ascii_unicode (str "  DUNE,  Part Two ")
             helper_phrases_absent_in_dune).
  vm_compute. reflexivity.
Defined.

(** X18. [clean_query_from_helpers] only removes: the cleaned query is
    never longer than the lower-cased message. *)
Theorem clean_query_never_longer :
  forall (U : Unicode) (message : pystr),
    length (clean_query_from_helpers message) <= length (str_lower message).
Proof.
  intros U message. unfold clean_query_from_helpers, collapse_ws.
  etransitivity; [apply strip_length|].
  etransitivity; [apply collapse_from_length|].
  etransitivity; [apply remove_phrases_length; apply helper_phrase_nonempty|].
  rewrite _strip_smart_quotes_map, length_map. lia.
Qed.

(* ===================================================================== *)
(** ** Cleaning, then resolving *)
(* ===================================================================== *)

Section WhitespaceNormalForm.
Context {U : Unicode}.

Lemma lstrip_collapse_from b s :
  lstrip (collapse_from b s) = lstrip (collapse_from false s).
Proof.
  destruct b; [|reflexivity]. destruct s as [|c s]; [reflexivity|]. simpl.
  destruct (isspace c); [|reflexivity]. simpl. reflexivity.
Qed.

Lemma lstrip_app_space w s :
  Forall (fun c => isspace c = true) w -> lstrip (w ++ s) = lstrip s.
Proof. induction 1 as [|c w Hc _ IH]; simpl; [reflexivity|]. now rewrite Hc. Qed.

Lemma rstrip_app_space s w :
  Forall (fun c => isspace c = true) w -> rstrip (s ++ w) = rstrip s.
Proof.
  intros H. unfold rstrip. rewrite rev_app_distr.
  rewrite lstrip_app_space by now apply Forall_rev. reflexivity.
Qed.

Lemma strip_app_space s w :
  Forall (fun c => isspace c = true) w -> strip (s ++ w) = strip s.
Proof.
  intros H. unfold strip. destruct (lstrip_spec s) as (w0 & Hs & Hw0 & Hhd).
  destruct (lstrip s) as [|c l] eqn:El.
  - rewrite app_nil_r in Hs. subst w0.
    rewrite lstrip_all_space; [reflexivity|]. apply Forall_app. now split.
  - rewrite Hs at 1. rewrite <- app_assoc.
    rewrite (lstrip_app_space _ Hw0). cbn [app lstrip]. rewrite Hhd.
    change (c :: l ++ w) with ((c :: l) ++ w). now apply rstrip_app_space.
Qed.

Lemma strip_collapse_space_l w s :
  Forall (fun c => isspace c = true) w ->
  strip (collapse_ws (w ++ s)) = strip (collapse_ws s).
Proof.
  induction 1 as [|c w Hc _ IH]; [reflexivity|].
  rewrite <- IH. unfold strip, collapse_ws. cbn [app collapse_from]. rewrite Hc.
  cbn [lstrip]. rewrite isspace_space. now rewrite lstrip_collapse_from.
Qed.

Lemma collapse_from_app_space b s w :
  Forall (fun c => isspace c = true) w ->
  exists w', collapse_from b (s ++ w) = collapse_from b s ++ w'
             /\ Forall (fun c => isspace c = true) w'.
Proof.
  intros Hw. revert b; induction s as [|c s IH]; intros b.
  - exists (collapse_from b w). split; [reflexivity|].
    apply Forall_forall. intros x Hx. apply collapse_from_incl in Hx.
    destruct Hx as [->|[Hx Hs]]; [reflexivity|].
    rewrite Forall_forall in Hw. rewrite (Hw x Hx) in Hs. discriminate.
  - cbn [app collapse_from]. destruct (isspace c); [destruct b|].
    + apply IH.
    + destruct (IH true) as (w' & -> & H'). exists w'. auto.
    + destruct (IH false) as (w' & -> & H'). exists w'. auto.
Qed.

Lemma strip_collapse_space_r s w :
  Forall (fun c => isspace c = true) w ->
  strip (collapse_ws (s ++ w)) = strip (collapse_ws s).
Proof.
  intros Hw. unfold collapse_ws.
  destruct (collapse_from_app_space false s Hw) as (w' & -> & H').
  now apply strip_app_space.
Qed.

(** Collapsing before a map that keeps whitespace whitespace changes
    nothing once the result is collapsed again. *)
Lemma collapse_map_collapse (f : char -> char) b b' s :
  (forall c, isspace c = true -> isspace (f c) = true) ->
  (b = true -> b' = true) ->
  collapse_from b' (map f (collapse_from b s)) = collapse_from b' (map f s).
Proof.
  intros Hf. revert b b'; induction s as [|c s IH]; intros b b' Hb; [reflexivity|].
  cbn [collapse_from map]. destruct (isspace c) eqn:Hc.
  - rewrite (Hf c Hc). destruct b.
    + rewrite (Hb eq_refl). now apply IH.
    + cbn [map collapse_from]. rewrite (Hf space isspace_space).
      destruct b'; now rewrite (IH true true).
  - cbn [map collapse_from]. destruct (isspace (f c)).
    + destruct b'; rewrite (IH false true); auto; discriminate.
    + rewrite (IH false false); auto.
Qed.

Lemma punct_keeps_space c :
  isspace c = true -> isspace (if is_word c || isspace c then c else space) = true.
Proof. intros H. rewrite H, orb_true_r. exact H. Qed.

Lemma normalize_after_strip_collapse u :
  strip (collapse_ws (punct_to_space (strip (collapse_ws u))))
  = strip (collapse_ws (punct_to_space u)).
Proof.
  assert (Hmap : forall w, Forall (fun c => isspace c = true) w ->
                           Forall (fun c => isspace c = true) (punct_to_space w)).
  { intros w Hw. unfold punct_to_space. apply Forall_map.
    eapply Forall_impl; [|exact Hw]. intros c Hc. now apply punct_keeps_space. }
  transitivity (strip (collapse_ws (punct_to_space (collapse_ws u)))).
  - unfold strip at 2.
    destruct (lstrip_spec (collapse_ws u)) as (w1 & E1 & H1 & _).
    destruct (rstrip_spec (lstrip (collapse_ws u))) as (w2 & E2 & H2 & _).
    fold (strip (collapse_ws u)) in E2.
    rewrite E1 at 2. rewrite E2 at 2.
    unfold punct_to_space at 2. rewrite !map_app.
    fold (punct_to_space w1). fold (punct_to_space w2).
    fold (punct_to_space (strip (collapse_ws u))).
    rewrite strip_collapse_space_l by now apply Hmap.
    rewrite strip_collapse_space_r by now apply Hmap. reflexivity.
  - unfold collapse_ws, punct_to_space. f_equal.
    apply collapse_map_collapse; [apply punct_keeps_space | discriminate].
Qed.

Lemma clean_text_normalizes u m :
  lower_stable ->
  u = _strip_smart_quotes (str_lower m) ->
  normalize_text (strip (collapse_ws u)) = normalize_text m.
Proof.
  intros Hlow Eu.
  assert (Hin : forall c, In c (strip (collapse_ws u)) ->
                          (c = space \/ In c u)).
  { intros c Hc. apply strip_incl, collapse_from_incl in Hc. tauto. }
  assert (Hl : str_lower (strip (collapse_ws u)) = strip (collapse_ws u)).
  { apply (Hlow m). intros c Hc. destruct (Hin c Hc) as [->|Hu]; [now left|].
    rewrite Eu, _strip_smart_quotes_map in Hu. apply in_map_iff in Hu.
    destruct Hu as (x & <- & Hx). destruct (fold_char_cases x) as [[-> _]|[_ H]].
    - apply in_or_app. now right.
    - apply in_or_app. left. simpl in *. tauto. }
  assert (Hq : _strip_smart_quotes (strip (collapse_ws u)) = strip (collapse_ws u)).
  { apply _strip_smart_quotes_fixed. intros c Hc.
    destruct (Hin c Hc) as [->|Hu]; [reflexivity|].
    rewrite Eu, _strip_smart_quotes_map in Hu. apply in_map_iff in Hu.
    destruct Hu as (x & <- & _). apply fold_char_not_smart. }
  assert (Hnil : str_lower [] = []) by (apply (Hlow []); intros c []).
  destruct m as [|x m].
  - rewrite Hnil in Eu. subst u. reflexivity.
  - cbn [normalize_text]. rewrite <- Eu.
    rewrite <- normalize_after_strip_collapse.
    destruct (strip (collapse_ws u)) as [|y t] eqn:E; [reflexivity|].
    cbn [normalize_text]. now rewrite Hl, Hq.
Qed.

End WhitespaceNormalForm.

(** X19. Cleaning is harmless where there is nothing to clean: for a
    message in which no helper phrase occurs between word boundaries,
    [extract_book_from_input] returns what [find_book_in_message] returns
    for the message itself. *)
Theorem extract_without_phrases :
  forall (U : Unicode) (D : Difflib) (L : Loaded) (user_input : pystr),
    lower_stable ->
    (forall p, In p HELPER_PHRASES ->
               ~ occurs_wb p (_strip_smart_quotes (str_lower user_input))) ->
    normalize_text (clean_query_from_helpers user_input) = normalize_text user_input
    /\ extract_book_from_input user_input = find_book_in_message user_input.
Proof.
  intros U D L user_input Hlow H.
  assert (E : normalize_text (clean_query_from_helpers user_input)
              = normalize_text user_input).
  { unfold clean_query_from_helpers. rewrite remove_phrases_fixed by exact H.
    now apply clean_text_normalizes. }
  split; [exact E|]. unfold extract_book_from_input.
  now apply find_book_same_norm.
Qed.

Lemma extract_without_phrases_witness :
  @extract_book_from_input ascii_unicode gestalt shelf (str "  DUNE,  Part Two ")
  = @find_book_in_message ascii_unicode gestalt shelf (str "  DUNE,  Part Two ")
  /\ @find_book_in_message ascii_unicode gestalt shelf (str "  DUNE,  Part Two ")
     = Some Dune.
Proof.
  split; [|vm_compute; reflexivity].
  exact (proj2 (@extract_without_phrases ascii_unicode gestalt shelf
                  (str "  DUNE,  Part Two ") ascii_lower_stable
                  helper_phrases_absent_in_dune)).
Defined.

(** X20. [get_bot_response] returns [None] exactly for a label outside
    the seven handled ones: for a handled label it returns a text or
    raises. *)
Theorem returns_None_iff_unhandled :
  forall (U : Unicode) (D : Difflib) (L : Loaded)
         (last_book : option book) (rnd : nat) (user_input : pystr),
    fst (get_bot_response last_book rnd user_input) = Ret None
    <-> ~ In (predict_intent user_input) handled_intents.
Proof.
  intros U D L last_book rnd user_input. split.
  - unfold get_bot_response, handled_intents.
    destruct (str_eqb (predict_intent user_input) (str "greeting")) eqn:E1.
    { destruct greeting_responses as [|g gs]; [discriminate|].
      destruct (random_choice rnd (g :: gs)); discriminate. }
    destruct (str_eqb (predict_intent user_input) (str "random_book")) eqn:E2.
    { destruct (random_choice rnd books_data) as [b|e]; [|discriminate].
      destruct (summary b); discriminate. }
    destruct (existsb (str_eqb (predict_intent user_input)) book_intents) eqn:E3.
    { destruct (extract_book_from_input user_input); [discriminate|].
      destruct last_book; discriminate. }
    intros _ [H|[H|H]].
    + rewrite <- H, str_eqb_refl in E1. discriminate.
    + rewrite <- H, str_eqb_refl in E2. discriminate.
    + apply existsb_str_eqb in H. congruence.
  - intros H. now rewrite (unhandled_intent_response last_book rnd user_input H).
Qed.
